(** * Packing-list chat application: the request lifecycle of [App]

    A shallow embedding of the React component [App] (its state, the
    handlers [handleSubmit] and [generatePackingList], the rendered
    [disabled] attributes), of the component [PackingListDisplay], and of
    the two platform functions the handlers rely on: [String.prototype.trim]
    / [String.prototype.replace] with the fence regular expression, and
    [JSON.parse]. *)

From Stdlib Require Import List NArith Bool String Ascii Lia.
Import ListNotations.

(** ** JavaScript strings *)

Module JsString.

(** A JavaScript string is a sequence of UTF-16 code units. *)
Definition jsstring := list N.

(** An ASCII literal, read as code units. *)
Definition lit (s : string) : jsstring :=
  map N_of_ascii (list_ascii_of_string s).

(** As [lit], with every apostrophe standing for a double quote (code unit 34);
    used to write JSON texts in examples. *)
Definition litq (s : string) : jsstring :=
  map (fun c => if N.eqb c 39 then 34%N else c) (lit s).

Definition dquote : jsstring := [34%N].
Definition newline : jsstring := [10%N].

(** ECMAScript [WhiteSpace] and [LineTerminator] code points, the set
    [String.prototype.trim] removes. *)
Definition isWhiteSpace (c : N) : bool :=
  ((9 <=? c) && (c <=? 13) || (c =? 32) || (c =? 160) || (c =? 5760)
   || (8192 <=? c) && (c <=? 8202) || (c =? 8232) || (c =? 8233)
   || (c =? 8239) || (c =? 8287) || (c =? 12288) || (c =? 65279))%N.

Fixpoint trimStart (s : jsstring) : jsstring :=
  match s with
  | [] => []
  | c :: t => if isWhiteSpace c then trimStart t else s
  end.

Definition trimEnd (s : jsstring) : jsstring := rev (trimStart (rev s)).

(** [s.trim()] *)
Definition trim (s : jsstring) : jsstring := trimEnd (trimStart s).

(** [pat] is a prefix of [s]. *)
Fixpoint startsWith (pat s : jsstring) : bool :=
  match pat, s with
  | [], _ => true
  | _ :: _, [] => false
  | p :: pat', c :: s' => N.eqb p c && startsWith pat' s'
  end.

(** [s.includes(pat)] *)
Fixpoint includes (s pat : jsstring) : bool :=
  startsWith pat s ||
  match s with
  | [] => false
  | _ :: t => includes t pat
  end.

(** [!s] for a string: only the empty string is falsy. *)
Definition is_empty (s : jsstring) : bool :=
  match s with [] => true | _ :: _ => false end.

(** *** The fence regular expression

    [/```json\n?|\n?```/g]: at a position, the first alternative is tried
    first (three backticks, [json], then greedily one optional line feed),
    then the second (greedily one optional line feed, then three backticks;
    when the line feed is taken and no fence follows, backtracking to the
    empty option cannot succeed either since the position holds a line
    feed). The result is the length of the match at the head of [s],
    [0] when there is none; a match is never empty. *)

Definition backticks : jsstring := [96; 96; 96]%N.
Definition fence_json : jsstring := backticks ++ lit "json".

Definition fence_match (s : jsstring) : nat :=
  if startsWith fence_json s then
    if startsWith newline (skipn 7 s) then 8 else 7
  else if startsWith (newline ++ backticks) s then 4
  else if startsWith backticks s then 3
  else 0.

(** [s.replace(/```json\n?|\n?```/g, '')]: scan from the left; at a match,
    drop it and resume right after it; otherwise keep the code unit.
    [skip] counts the code units of the current match still to drop. *)
Fixpoint replace_fences (skip : nat) (s : jsstring) : jsstring :=
  match s with
  | [] => []
  | c :: t =>
      match skip with
      | S k => replace_fences k t
      | O =>
          match fence_match s with
          | O => c :: replace_fences 0 t
          | S m => replace_fences m t
          end
      end
  end.

(** [text.replace(/```json\n?|\n?```/g, '').trim()], the "clean the
    response text" step of [generatePackingList]. *)
Definition strip_fences (text : jsstring) : jsstring :=
  trim (replace_fences 0 text).

(** A response wrapped in a [json] code fence. *)
Definition wrap_fence (payload : jsstring) : jsstring :=
  fence_json ++ newline ++ payload ++ newline ++ backticks.

End JsString.
Import JsString.

(** ** JSON values and [JSON.parse] *)

Module Json.

(** The values [JSON.parse] can return. A number is kept as the text of its
    token (the conversion to a double is not modelled); an object is kept as
    its members in source order, duplicates included (a property read sees
    the last one, see [get_member]). *)
#[warnings="-register-all"]
Inductive JSValue : Type :=
| JNull
| JBool (b : bool)
| JNumber (lexeme : jsstring)
| JString (s : jsstring)
| JArray (elems : list JSValue)
| JObject (members : list (jsstring * JSValue)).

(** Outcome of a parsing function: a value and the unread rest of the text,
    a syntax error, or recursion budget exhausted (shown below never to
    happen with the budget [JSON_parse] gives). *)
Inductive presult (A : Type) : Type :=
| Ok (a : A) (rest : jsstring)
| SyntaxError
| OutOfFuel.
Arguments Ok {A} a rest.
Arguments SyntaxError {A}.
Arguments OutOfFuel {A}.

Definition bindP {A B} (r : presult A) (k : A -> jsstring -> presult B)
  : presult B :=
  match r with
  | Ok a rest => k a rest
  | SyntaxError => SyntaxError
  | OutOfFuel => OutOfFuel
  end.

(** JSON white space: tab, line feed, carriage return, space. *)
Definition isJsonWs (c : N) : bool :=
  ((c =? 9) || (c =? 10) || (c =? 13) || (c =? 32))%N.

Fixpoint skip_ws (s : jsstring) : jsstring :=
  match s with
  | [] => []
  | c :: t => if isJsonWs c then skip_ws t else s
  end.

Definition isDigit (c : N) : bool := ((48 <=? c) && (c <=? 57))%N.

Definition hexval (c : N) : option N :=
  if isDigit c then Some (c - 48)%N
  else if ((97 <=? c) && (c <=? 102))%N then Some (c - 87)%N
  else if ((65 <=? c) && (c <=? 70))%N then Some (c - 55)%N
  else None.

Definition hex4 (a b c d : N) : option N :=
  match hexval a, hexval b, hexval c, hexval d with
  | Some x, Some y, Some z, Some w => Some (((x * 16 + y) * 16 + z) * 16 + w)%N
  | _, _, _, _ => None
  end.

(** The single-character escapes of a JSON string. *)
Definition unescape (c : N) : option N :=
  if (c =? 34)%N then Some 34%N          (* quote *)
  else if (c =? 92)%N then Some 92%N     (* backslash *)
  else if (c =? 47)%N then Some 47%N     (* slash *)
  else if (c =? 98)%N then Some 8%N      (* b *)
  else if (c =? 102)%N then Some 12%N    (* f *)
  else if (c =? 110)%N then Some 10%N    (* n *)
  else if (c =? 114)%N then Some 13%N    (* r *)
  else if (c =? 116)%N then Some 9%N     (* t *)
  else None.

(** The characters of a string after its opening quote, up to and
    including the closing quote. *)
Fixpoint parse_string_body (s : jsstring) : presult jsstring :=
  match s with
  | [] => SyntaxError
  | c :: t =>
      if (c =? 34)%N then Ok [] t
      else if (c =? 92)%N then
        match t with
        | [] => SyntaxError
        | e :: t' =>
            if (e =? 117)%N then
              match t' with
              | h1 :: h2 :: h3 :: h4 :: t'' =>
                  match hex4 h1 h2 h3 h4 with
                  | Some u =>
                      bindP (parse_string_body t'') (fun str r => Ok (u :: str) r)
                  | None => SyntaxError
                  end
              | _ => SyntaxError
              end
            else
              match unescape e with
              | Some u =>
                  bindP (parse_string_body t') (fun str r => Ok (u :: str) r)
              | None => SyntaxError
              end
        end
      else if (c <? 32)%N then SyntaxError
      else bindP (parse_string_body t) (fun str r => Ok (c :: str) r)
  end.

(** The longest run of digits at the head, and what follows it. *)
Fixpoint span_digits (s : jsstring) : jsstring * jsstring :=
  match s with
  | c :: t =>
      if isDigit c then let (ds, r) := span_digits t in (c :: ds, r)
      else ([], s)
  | [] => ([], [])
  end.

(** Integer part: a single [0], or a non-zero digit and more digits. *)
Definition parse_int (s : jsstring) : presult jsstring :=
  match s with
  | c :: t =>
      if (c =? 48)%N then Ok [c] t
      else if isDigit c then let (ds, r) := span_digits t in Ok (c :: ds) r
      else SyntaxError
  | [] => SyntaxError
  end.

(** Optional fraction: a dot and at least one digit. *)
Definition parse_frac (s : jsstring) : presult jsstring :=
  match s with
  | c :: t =>
      if (c =? 46)%N then
        match span_digits t with
        | ([], _) => SyntaxError
        | (ds, r) => Ok (c :: ds) r
        end
      else Ok [] s
  | [] => Ok [] s
  end.

(** Optional exponent: [e] or [E], an optional sign, at least one digit. *)
Definition parse_exp (s : jsstring) : presult jsstring :=
  match s with
  | c :: t =>
      if ((c =? 101) || (c =? 69))%N then
        let (sign, t') :=
          match t with
          | g :: u => if ((g =? 43) || (g =? 45))%N then ([g], u) else ([], t)
          | [] => ([], t)
          end in
        match span_digits t' with
        | ([], _) => SyntaxError
        | (ds, r) => Ok (c :: sign ++ ds) r
        end
      else Ok [] s
  | [] => Ok [] s
  end.

Definition parse_number (s : jsstring) : presult jsstring :=
  let (sign, s') :=
    match s with
    | c :: t => if (c =? 45)%N then ([c], t) else ([], s)
    | [] => ([], s)
    end in
  bindP (parse_int s') (fun i r1 =>
  bindP (parse_frac r1) (fun f r2 =>
  bindP (parse_exp r2) (fun e r3 => Ok (sign ++ i ++ f ++ e) r3))).

(** [null], [true], [false] or a number. *)
Definition parse_scalar (s : jsstring) : presult JSValue :=
  if startsWith (lit "null") s then Ok JNull (skipn 4 s)
  else if startsWith (lit "true") s then Ok (JBool true) (skipn 4 s)
  else if startsWith (lit "false") s then Ok (JBool false) (skipn 5 s)
  else bindP (parse_number s) (fun n r => Ok (JNumber n) r).

(** A value; the elements of an array after its opening bracket (at least
    one, up to and including the closing bracket); the members of an
    object likewise. *)
Fixpoint parse_value (fuel : nat) (s : jsstring) {struct fuel}
  : presult JSValue :=
  match fuel with
  | O => OutOfFuel
  | S f =>
      match skip_ws s with
      | [] => SyntaxError
      | c :: r =>
          if (c =? 91)%N then
            match skip_ws r with
            | [] => SyntaxError
            | c' :: r' =>
                if (c' =? 93)%N then Ok (JArray []) r'
                else bindP (parse_elements f r) (fun vs k => Ok (JArray vs) k)
            end
          else if (c =? 123)%N then
            match skip_ws r with
            | [] => SyntaxError
            | c' :: r' =>
                if (c' =? 125)%N then Ok (JObject []) r'
                else bindP (parse_members f r) (fun ms k => Ok (JObject ms) k)
            end
          else if (c =? 34)%N then
            bindP (parse_string_body r) (fun str k => Ok (JString str) k)
          else parse_scalar (c :: r)
      end
  end
with parse_elements (fuel : nat) (s : jsstring) {struct fuel}
  : presult (list JSValue) :=
  match fuel with
  | O => OutOfFuel
  | S f =>
      bindP (parse_value f s) (fun v r =>
        match skip_ws r with
        | [] => SyntaxError
        | c :: r' =>
            if (c =? 44)%N then
              bindP (parse_elements f r') (fun vs k => Ok (v :: vs) k)
            else if (c =? 93)%N then Ok [v] r'
            else SyntaxError
        end)
  end
with parse_members (fuel : nat) (s : jsstring) {struct fuel}
  : presult (list (jsstring * JSValue)) :=
  match fuel with
  | O => OutOfFuel
  | S f =>
      match skip_ws s with
      | [] => SyntaxError
      | q :: r =>
          if (q =? 34)%N then
            bindP (parse_string_body r) (fun key r1 =>
              match skip_ws r1 with
              | [] => SyntaxError
              | c1 :: r2 =>
                  if (c1 =? 58)%N then
                    bindP (parse_value f r2) (fun v r3 =>
                      match skip_ws r3 with
                      | [] => SyntaxError
                      | c3 :: r4 =>
                          if (c3 =? 44)%N then
                            bindP (parse_members f r4)
                                  (fun ms k => Ok ((key, v) :: ms) k)
                          else if (c3 =? 125)%N then Ok [(key, v)] r4
                          else SyntaxError
                      end)
                  else SyntaxError
              end)
          else SyntaxError
      end
  end.

(** Recursion budget for a text: enough for every text (see
    [parse_value_fuel]). *)
Definition fuel_for (text : jsstring) : nat := 2 * List.length text + 1.

(** [JSON.parse(text)]: the value, or [None] when a [SyntaxError] is
    thrown. The whole text must be one value surrounded by white space. *)
Definition JSON_parse (text : jsstring) : option JSValue :=
  match parse_value (fuel_for text) text with
  | Ok v rest => if is_empty (skip_ws rest) then Some v else None
  | _ => None
  end.

End Json.
Import Json.

(** ** The data model ([types.ts]) and the component state *)

Inductive Role : Type := user | assistant.

Record Message : Type := mkMessage { role : Role; content : jsstring }.

(** The five [useState] cells of [App]. [packingList] holds whatever
    [JSON.parse] returned, [JNull] standing for JavaScript's [null]. *)
Record AppState : Type := mkAppState {
  messages : list Message;
  input : jsstring;
  isLoading : bool;
  packingList : JSValue;
  apiKeyError : bool
}.

Definition setMessages (f : list Message -> list Message) (s : AppState) :=
  mkAppState (f (messages s)) (input s) (isLoading s) (packingList s)
             (apiKeyError s).
Definition setInput (v : jsstring) (s : AppState) :=
  mkAppState (messages s) v (isLoading s) (packingList s) (apiKeyError s).
Definition setIsLoading (b : bool) (s : AppState) :=
  mkAppState (messages s) (input s) b (packingList s) (apiKeyError s).
Definition setPackingList (v : JSValue) (s : AppState) :=
  mkAppState (messages s) (input s) (isLoading s) v (apiKeyError s).
Definition setApiKeyError (b : bool) (s : AppState) :=
  mkAppState (messages s) (input s) (isLoading s) (packingList s) b.

(** What the generation call can do: resolve with the response text, or
    throw (reject with) a value that is an [Error] with a message, or
    something else. *)
Inductive Thrown : Type :=
| ErrorObject (message : jsstring)
| OtherValue.

Inductive CallOutcome : Type :=
| Resolved (text : jsstring)
| Rejected (error : Thrown).

(** An [async] handler run up to its first [await]: either it returned
    before awaiting, or it issued the outbound call with [prompt] and its
    continuation [resume] runs when the call settles, on the state of that
    moment (all updates of the messages are functional updates). *)
Inductive Async : Type :=
| Done (s : AppState)
| Await (s : AppState) (prompt : jsstring)
        (resume : CallOutcome -> AppState -> AppState).

(** The fixed assistant texts. *)
Definition msg_not_configured : jsstring :=
  lit "Error: Gemini API key is not configured. Please add your API key to the .env file.".
Definition msg_generated : jsstring :=
  lit "I've generated a packing list based on your trip details. You can find it below!".
Definition msg_invalid_format : jsstring :=
  lit "Sorry, I received an invalid response format. Please try again.".
Definition msg_invalid_key : jsstring :=
  lit "Error: Invalid API key. Please check your Gemini API key configuration.".
Definition msg_rate_limit : jsstring :=
  lit "Rate limit exceeded. Please try again in a few moments.".
Definition msg_retry : jsstring :=
  lit "I'm sorry, I encountered an error while generating your packing list. Please try again.".
Definition msg_unexpected : jsstring :=
  lit "An unexpected error occurred".

(** The two messages every path appends. *)
Definition exchange (text reply : jsstring) : list Message :=
  [mkMessage user text; mkMessage assistant reply].

(** ** [App], current revision (with response cleaning) *)

Module App.

Definition indent (n : nat) (s : string) : jsstring :=
  repeat 32%N n ++ lit s.

(** The template literal of [generatePackingList]. *)
Definition prompt (input : jsstring) : jsstring :=
  lit "Generate a detailed packing list based on this trip description: "
  ++ dquote ++ input ++ dquote ++ lit ". " ++ newline
  ++ indent 8 "Return ONLY a JSON object (no markdown, no backticks) with this structure:"
  ++ newline
  ++ indent 8 "{" ++ newline
  ++ indent 10 "" ++ dquote ++ lit "categories" ++ dquote ++ lit ": [" ++ newline
  ++ indent 12 "{" ++ newline
  ++ indent 14 "" ++ dquote ++ lit "name" ++ dquote ++ lit ": "
     ++ dquote ++ lit "Category Name" ++ dquote ++ lit "," ++ newline
  ++ indent 14 "" ++ dquote ++ lit "items" ++ dquote ++ lit ": ["
     ++ dquote ++ lit "Item 1" ++ dquote ++ lit ", "
     ++ dquote ++ lit "Item 2" ++ dquote ++ lit "]" ++ newline
  ++ indent 12 "}" ++ newline
  ++ indent 10 "]" ++ newline
  ++ indent 8 "}".

(** The nested conditional of the outer [catch]. *)
Definition errorMessage (error : Thrown) : jsstring :=
  match error with
  | ErrorObject message =>
      if includes message (lit "API_KEY_INVALID") then msg_invalid_key
      else if includes message (lit "RATE_LIMIT_EXCEEDED") then msg_rate_limit
      else msg_retry
  | OtherValue => msg_unexpected
  end.

Section Controller.

(** [import.meta.env.VITE_GEMINI_API_KEY]: a string, or undefined. *)
Variable API_KEY : option jsstring.

(** [!API_KEY] *)
Definition no_api_key : bool :=
  match API_KEY with
  | None => true
  | Some k => is_empty k
  end.

(** The state [App] mounts with. *)
Definition initial : AppState :=
  mkAppState [] [] false JNull no_api_key.

(** [generatePackingList], with [input] the value the handler closed over. *)
Definition generatePackingList (s : AppState) : Async :=
  if no_api_key then
    Done (setInput []
           (setMessages (fun prev => prev ++ exchange (input s) msg_not_configured)
             (setApiKeyError true s)))
  else
    Await (setApiKeyError false (setIsLoading true s))
          (prompt (input s))
          (fun outcome st =>
             setIsLoading false
               match outcome with
               | Resolved text =>
                   let text := strip_fences text in
                   setInput []
                     match JSON_parse text with
                     | Some parsedList =>
                         setMessages
                           (fun prev => prev ++ exchange (input s) msg_generated)
                           (setPackingList parsedList st)
                     | None =>
                         setMessages
                           (fun prev => prev ++ exchange (input s) msg_invalid_format)
                           st
                     end
               | Rejected error =>
                   setInput []
                     (setApiKeyError true
                        (setMessages
                           (fun prev => prev ++ exchange (input s) (errorMessage error))
                           st))
               end).

(** [handleSubmit] *)
Definition handleSubmit (s : AppState) : Async :=
  if is_empty (trim (input s)) || isLoading s then Done s
  else generatePackingList s.

(** The [disabled] attributes of the text input and of the submit button. *)
Definition input_disabled (s : AppState) : bool :=
  isLoading s || apiKeyError s.
Definition button_disabled (s : AppState) : bool :=
  isLoading s || is_empty (trim (input s)) || apiKeyError s.

(** *** One submission, followed to its end *)

(** The outbound calls a handler run issued. *)
Definition outbound (a : Async) : list jsstring :=
  match a with
  | Done _ => []
  | Await _ p _ => [p]
  end.

(** The state once the handler has run to its end, the call (if one was
    issued) having settled with [o] with no event in between. *)
Definition settled (a : Async) (o : CallOutcome) : AppState :=
  match a with
  | Done s => s
  | Await s _ resume => resume o s
  end.

(** *** The component as an event-driven system *)

(** The component state, the continuations of the calls in flight (oldest
    first), and the prompts of all outbound calls issued so far. *)
Record Sys : Type := mkSys {
  ui : AppState;
  inflight : list (CallOutcome -> AppState -> AppState);
  calls : list jsstring
}.

Inductive Event : Type :=
| Change (value : jsstring)       (* [onChange] of the text input *)
| Submit                          (* [onSubmit] of the form *)
| Settle (outcome : CallOutcome). (* the oldest call in flight settles *)

Definition step (sys : Sys) (e : Event) : Sys :=
  match e with
  | Change value => mkSys (setInput value (ui sys)) (inflight sys) (calls sys)
  | Submit =>
      match handleSubmit (ui sys) with
      | Done s => mkSys s (inflight sys) (calls sys)
      | Await s p resume =>
          mkSys s (inflight sys ++ [resume]) (calls sys ++ [p])
      end
  | Settle outcome =>
      match inflight sys with
      | [] => sys
      | resume :: rest => mkSys (resume outcome (ui sys)) rest (calls sys)
      end
  end.

Definition run (sys : Sys) (es : list Event) : Sys := fold_left step es sys.

Definition boot : Sys := mkSys initial [] [].

(** Whether the rendered controls let the user cause the event: typing
    needs the input enabled, submitting needs the button enabled (a form
    whose submit button is disabled is not submitted by the Enter key
    either); the network may settle a call at any time. Only the
    [disabled] attributes are read, so this offers at least what the form
    on screen offers; [on_offer] below also asks that the tree builds. *)
Definition offered (s : AppState) (e : Event) : bool :=
  match e with
  | Change _ => negb (input_disabled s)
  | Submit => negb (button_disabled s)
  | Settle _ => true
  end.

(** Whether the rendered controls offer every event of [es] in turn. *)
Fixpoint admissible (sys : Sys) (es : list Event) : bool :=
  match es with
  | [] => true
  | e :: rest => offered (ui sys) e && admissible (step sys e) rest
  end.

End Controller.

End App.

(** ** [App], earlier revision ([src/App.tsx])

    The same component before the response cleaning, the inner [try] and
    the rate-limit message were added: the response text is parsed as it
    is, and a [SyntaxError] of [JSON.parse] lands in the one [catch]. *)

Module Legacy.

Definition prompt (input : jsstring) : jsstring :=
  lit "Generate a detailed packing list based on this trip description: "
  ++ dquote ++ input ++ dquote ++ lit ". " ++ newline
  ++ App.indent 8 "Format the response as a JSON object with this structure:"
  ++ newline
  ++ App.indent 8 "{" ++ newline
  ++ App.indent 10 "" ++ dquote ++ lit "categories" ++ dquote ++ lit ": [" ++ newline
  ++ App.indent 12 "{" ++ newline
  ++ App.indent 14 "" ++ dquote ++ lit "name" ++ dquote ++ lit ": "
     ++ dquote ++ lit "Category Name" ++ dquote ++ lit "," ++ newline
  ++ App.indent 14 "" ++ dquote ++ lit "items" ++ dquote ++ lit ": ["
     ++ dquote ++ lit "Item 1" ++ dquote ++ lit ", "
     ++ dquote ++ lit "Item 2" ++ dquote ++ lit ", ...]" ++ newline
  ++ App.indent 12 "}" ++ newline
  ++ App.indent 10 "]" ++ newline
  ++ App.indent 8 "}" ++ newline
  ++ App.indent 8 "Include common categories like Clothing, Toiletries, Electronics, etc.".

Definition errorMessage (error : Thrown) : jsstring :=
  match error with
  | ErrorObject message =>
      if includes message (lit "API_KEY_INVALID") then msg_invalid_key
      else msg_retry
  | OtherValue => msg_retry
  end.

Section Controller.

Variable API_KEY : option jsstring.

(** The message of the [SyntaxError] the engine's [JSON.parse] throws for
    a text; its wording is the engine's. *)
Variable syntaxErrorMessage : jsstring -> jsstring.

(** The body of the [catch] block. *)
Definition caught (text : jsstring) (error : Thrown) (st : AppState) : AppState :=
  setInput []
    (setApiKeyError true
       (setMessages (fun prev => prev ++ exchange text (errorMessage error)) st)).

Definition generatePackingList (s : AppState) : Async :=
  if App.no_api_key API_KEY then
    Done (setInput []
           (setMessages (fun prev => prev ++ exchange (input s) msg_not_configured)
             (setApiKeyError true s)))
  else
    Await (setApiKeyError false (setIsLoading true s))
          (prompt (input s))
          (fun outcome st =>
             setIsLoading false
               match outcome with
               | Resolved text =>
                   match JSON_parse text with
                   | Some parsedList =>
                       setInput []
                         (setMessages
                            (fun prev => prev ++ exchange (input s) msg_generated)
                            (setPackingList parsedList st))
                   | None =>
                       caught (input s) (ErrorObject (syntaxErrorMessage text)) st
                   end
               | Rejected error => caught (input s) error st
               end).

Definition handleSubmit (s : AppState) : Async :=
  if is_empty (trim (input s)) || isLoading s then Done s
  else generatePackingList s.

End Controller.

End Legacy.

(** ** [PackingListDisplay] *)

Module Display.

(** A value read from a property: [None] is [undefined]. *)
Definition JSRead : Type := option JSValue.

(** The last member named [key], as a property read of a parsed object
    gives it. *)
Fixpoint get_member (ms : list (jsstring * JSValue)) (key : jsstring) : JSRead :=
  match ms with
  | [] => None
  | (k, v) :: rest =>
      match get_member rest key with
      | Some v' => Some v'
      | None => if list_eq_dec N.eq_dec k key then Some v else None
      end
  end.

(** [v.key] for [key] one of [categories], [name], [items], none of which
    is a property of arrays, strings, numbers or booleans: the read gives
    [undefined] on those and throws a [TypeError] ([None]) on [null] and
    [undefined]. *)
Definition dot (v : JSRead) (key : jsstring) : option JSRead :=
  match v with
  | None => None
  | Some JNull => None
  | Some (JObject ms) => Some (get_member ms key)
  | Some _ => Some None
  end.

(** [xs.map(f)]: a [TypeError] unless [xs] is an array (no JSON value has a
    callable [map] property otherwise). *)
Definition as_array (v : JSRead) : option (list JSValue) :=
  match v with
  | Some (JArray xs) => Some xs
  | _ => None
  end.

Fixpoint mapM {A B} (f : A -> option B) (xs : list A) : option (list B) :=
  match xs with
  | [] => Some []
  | x :: t =>
      match f x with
      | None => None
      | Some y => match mapM f t with None => None | Some ys => Some (y :: ys) end
      end
  end.

(** One rendered category: the heading's child and the row children. *)
Record Group : Type := mkGroup { heading : JSRead; rows : list JSValue }.

(** The element tree of [PackingListDisplay], reduced to what depends on
    [list]; [None] when building it throws a [TypeError]. *)
Definition PackingListDisplay : JSValue -> option (list Group) := fun list =>
  match dot (Some list) (lit "categories") with
  | None => None
  | Some categories =>
      match as_array categories with
      | None => None
      | Some cs =>
          mapM (fun category =>
                  match dot (Some category) (lit "name") with
                  | None => None
                  | Some name =>
                      match dot (Some category) (lit "items") with
                      | None => None
                      | Some items =>
                          match as_array items with
                          | None => None
                          | Some rows => Some (mkGroup name rows)
                          end
                      end
                  end) cs
      end
  end.

(** Whether [list.categories] reads an array. *)
Definition has_categories_array (v : JSValue) : bool :=
  match dot (Some v) (lit "categories") with
  | Some (Some (JArray _)) => true
  | _ => false
  end.

End Display.

Import App Display.

(** ** The typed data model of [types.ts] *)

Module Typed.

(** [{ name: string; items: string[] }] *)
Record Category : Type := mkCategory { name : jsstring; items : list jsstring }.

(** [interface PackingList] *)
Record PackingList : Type := mkPackingList { categories : list Category }.

(** The JavaScript value of a packing list written with exactly these
    members, in this order: one value among those of the type, which
    [read_list] below recognises in general. *)
Definition category_value (c : Category) : JSValue :=
  JObject [(lit "name", JString (name c));
           (lit "items", JArray (map JString (items c)))].

Definition to_value (pl : PackingList) : JSValue :=
  JObject [(lit "categories", JArray (map category_value (categories pl)))].

End Typed.

(** ** [ChatMessage] and the tree [App] returns *)

Module View.

Inductive Icon : Type := MessageSquare | Bot.

(** What [ChatMessage] returns: the class lists of the row, of the avatar
    and of the text box, the avatar's icon, and the text box's child. *)
Record Bubble : Type := mkBubble {
  row_class : string;
  avatar_class : string;
  avatar_icon : Icon;
  body_class : string;
  body : jsstring
}.

Definition ChatMessage (message : Message) : Bubble :=
  let isUser := match role message with user => true | assistant => false end in
  mkBubble
    ("flex gap-3 " ++ (if isUser then "flex-row-reverse" else ""))
    ("w-8 h-8 rounded-full flex items-center justify-center flex-shrink-0 "
     ++ (if isUser then "bg-blue-500" else "bg-gray-600"))
    (if isUser then MessageSquare else Bot)
    ("max-w-[80%] rounded-lg p-4 "
     ++ (if isUser then "bg-blue-500 text-white"
         else "bg-gray-50 border border-gray-100 text-gray-800"))
    (content message).

(** [xs.map((x, index) => f index x)], counting from [i]. *)
Fixpoint mapi_from {A B} (i : nat) (f : nat -> A -> B) (xs : list A) : list B :=
  match xs with
  | [] => []
  | x :: t => f i x :: mapi_from (S i) f t
  end.

(** [messages.map((message, index) => <ChatMessage key={index} ... />)]:
    each element with its key. *)
Definition chat (ms : list Message) : list (nat * Bubble) :=
  mapi_from 0 (fun index message => (index, ChatMessage message)) ms.

Section Root.

(** Whether the double a number token denotes is neither zero nor NaN; the
    conversion of the token is the engine's. *)
Variable nonzero : jsstring -> bool.

(** JavaScript's truthiness of a parsed value. *)
Definition ToBoolean (v : JSValue) : bool :=
  match v with
  | JNull => false
  | JBool b => b
  | JNumber n => nonzero n
  | JString s => negb (is_empty s)
  | JArray _ => true
  | JObject _ => true
  end.

(** [messages.length === 0 && !packingList] *)
Definition show_welcome (s : AppState) : bool :=
  Nat.eqb (List.length (messages s)) 0 && negb (ToBoolean (packingList s)).

(** The state-dependent parts of the tree: the alert, the welcome panel,
    the chat elements, the form controls, the button's spinner, and the
    last child of the grid, which is [packingList] itself when that is
    falsy and the panel of [PackingListDisplay] otherwise. *)
Record Tree : Type := mkTree {
  alert : bool;
  welcome : bool;
  bubbles : list (nat * Bubble);
  field_value : jsstring;
  field_disabled : bool;
  send_disabled : bool;
  spinner : bool;
  result : JSValue + list Group
}.

(** The tree of [App] with its children built; [None] when building
    [PackingListDisplay] throws. *)
Definition render (s : AppState) : option Tree :=
  let tree := mkTree (apiKeyError s) (show_welcome s) (chat (messages s))
                     (input s) (isLoading s || apiKeyError s)
                     (isLoading s || is_empty (trim (input s)) || apiKeyError s)
                     (isLoading s) in
  if ToBoolean (packingList s) then
    match PackingListDisplay (packingList s) with
    | Some groups => Some (tree (inr groups))
    | None => None
    end
  else Some (tree (inl (packingList s))).

End Root.

End View.

(** ** Vocabulary of the statements *)

(** "Empty or whitespace-only", as the specification words the guard. *)
Definition blank (s : jsstring) : bool := forallb isWhiteSpace s.

(** No code unit of [s] is a backtick, as a proposition and as a test. *)
Definition no_backtick (s : jsstring) : Prop := Forall (fun c => c <> 96%N) s.
Definition no_backtickb (s : jsstring) : bool :=
  forallb (fun c => negb (c =? 96)%N) s.

(** The closing fence of [wrap_fence]. *)
Definition closing : jsstring := newline ++ backticks.

(** What every continuation of [generatePackingList] guarantees, whatever
    the outcome and whatever the state it resumes on. *)
Definition tidy (resume : CallOutcome -> AppState -> AppState) : Prop :=
  forall o st,
    isLoading (resume o st) = false
    /\ input (resume o st) = []
    /\ exists text reply,
        messages (resume o st) = messages st ++ exchange text reply.

(** The calls in flight are continuations of [generatePackingList], and
    there is one exactly while the pending flag is up. *)
Definition consistent (sys : Sys) : Prop :=
  Forall tidy (inflight sys)
  /\ List.length (inflight sys) = if isLoading (ui sys) then 1 else 0.

(** *** Sample data for the concrete instances *)

Definition key0 : option jsstring := Some (lit "test-key").
Definition trip : jsstring := lit "Weekend beach trip".
Definition clothing_json : jsstring :=
  litq "{'categories':[{'name':'Clothing','items':['Shirt','Pants']}]}".
Definition clothing : JSValue :=
  JObject [(lit "categories",
            JArray [JObject [(lit "name", JString (lit "Clothing"));
                             (lit "items", JArray [JString (lit "Shirt");
                                                   JString (lit "Pants")])]])].

(** A state with a packing list already on display and a trip typed in. *)
Definition seeded : AppState :=
  mkAppState (exchange (lit "Earlier") msg_generated) trip false clothing false.

(** A packing list one of whose names holds a fence marker. *)
Definition fenced_name_json : jsstring :=
  litq "{'categories':[{'name':'```','items':[]}]}".

(** An authentication failure as the service reports it. *)
Definition invalid_key_error : Thrown :=
  ErrorObject (lit "[400] API key not valid. [reason: API_KEY_INVALID]").

(** *** Whole exchanges *)

(** The assistant texts the component can append. *)
Definition fixed_replies : list jsstring :=
  [msg_not_configured; msg_generated; msg_invalid_format; msg_invalid_key;
   msg_rate_limit; msg_retry; msg_unexpected].

(** The reply a settled call is answered with, the packing list it
    leaves, and the gate it leaves. *)
Definition reply_of (o : CallOutcome) : jsstring :=
  match o with
  | Resolved text =>
      match JSON_parse (strip_fences text) with
      | Some _ => msg_generated
      | None => msg_invalid_format
      end
  | Rejected error => errorMessage error
  end.

Definition list_after (previous : JSValue) (o : CallOutcome) : JSValue :=
  match o with
  | Resolved text =>
      match JSON_parse (strip_fences text) with
      | Some parsed => parsed
      | None => previous
      end
  | Rejected _ => previous
  end.

Definition gate_after (previous : bool) (o : CallOutcome) : bool :=
  match o with
  | Resolved _ => previous
  | Rejected _ => true
  end.

(** A continuation that answers the text [text] as [generatePackingList]
    does. *)
Definition answers (text : jsstring)
           (resume : CallOutcome -> AppState -> AppState) : Prop :=
  forall o st,
    resume o st
    = mkAppState (messages st ++ exchange text (reply_of o)) [] false
                 (list_after (packingList st) o) (gate_after (apiKeyError st) o).

(** Every call in flight answers some non-blank text. *)
Definition sound (sys : Sys) : Prop :=
  Forall (fun resume => exists text, blank text = false /\ answers text resume)
         (inflight sys).

(** A transcript made of whole exchanges, each a non-blank user text
    answered by one of the fixed replies. *)
Definition exchanges (pairs : list (jsstring * jsstring)) : list Message :=
  flat_map (fun p => exchange (fst p) (snd p)) pairs.

Definition proper_pair (p : jsstring * jsstring) : Prop :=
  blank (fst p) = false /\ In (snd p) fixed_replies.

(** One round of use: type a text, submit it, the call settles. *)
Definition round (r : jsstring * CallOutcome) : list Event :=
  [Change (fst r); Submit; Settle (snd r)].

Definition is_resolved (o : CallOutcome) : bool :=
  match o with Resolved _ => true | Rejected _ => false end.

(** A response wrapped in a fence without a language tag. *)
Definition wrap_plain (payload : jsstring) : jsstring :=
  backticks ++ newline ++ payload ++ newline ++ backticks.

(** *** Cleaning, code unit by code unit *)

(** The number of backticks of a text. *)
Definition ticks (s : jsstring) : nat := count_occ N.eq_dec s 96%N.

(** [a] is [b] with some code units deleted. *)
Inductive subseq : jsstring -> jsstring -> Prop :=
| subseq_nil : subseq [] []
| subseq_keep c a b : subseq a b -> subseq (c :: a) (c :: b)
| subseq_drop c a b : subseq a b -> subseq a (c :: b).

(** The code units the cleaning step can delete: a backtick, a letter of
    [json], or white space (the line feed included). *)
Definition fence_unit (c : N) : bool :=
  ((c =? 96) || (c =? 106) || (c =? 115) || (c =? 111) || (c =? 110))%N
  || isWhiteSpace c.

(** The code units the cleaning step never deletes, in order. *)
Definition kept (s : jsstring) : jsstring :=
  filter (fun c => negb (fence_unit c)) s.

(** *** Reading a parsed value at the type of [types.ts]

    A value has the structural type [PackingList] when its [categories]
    reads an array of objects whose [name] reads a string and whose
    [items] reads an array of strings; the order of the members and any
    further member are immaterial. *)

Definition read_string (v : JSRead) : option jsstring :=
  match v with
  | Some (JString s) => Some s
  | _ => None
  end.

Definition read_strings (v : JSRead) : option (list jsstring) :=
  match v with
  | Some (JArray xs) => mapM (fun x => read_string (Some x)) xs
  | _ => None
  end.

Definition read_category (v : JSValue) : option Typed.Category :=
  match v with
  | JObject ms =>
      match read_string (get_member ms (lit "name")),
            read_strings (get_member ms (lit "items")) with
      | Some n, Some its => Some (Typed.mkCategory n its)
      | _, _ => None
      end
  | _ => None
  end.

Definition read_list (v : JSValue) : option Typed.PackingList :=
  match v with
  | JObject ms =>
      match get_member ms (lit "categories") with
      | Some (JArray cs) => option_map Typed.mkPackingList (mapM read_category cs)
      | _ => None
      end
  | _ => None
  end.

(** *** The form as the tree shows it *)

(** Whether the tree of [App] builds with [v] stored: [v] is falsy, or
    [PackingListDisplay] does not throw on it. *)
Definition displayable (nonzero : jsstring -> bool) (v : JSValue) : bool :=
  if View.ToBoolean nonzero v then
    match PackingListDisplay v with Some _ => true | None => false end
  else true.




(** The specification's example with the members in another order and
    further members. *)
Definition shuffled_json : jsstring :=
  litq "{'trip':'beach','categories':[{'items':['Shirt','Pants'],'packed':false,'name':'Clothing'}]}".

(** Whether the settled call of an event, if it is one and resolved with a
    text that parses, gave a value of the type [PackingList]. *)
Definition typed_answer (e : Event) : Prop :=
  match e with
  | Settle (Resolved text) =>
      match JSON_parse (strip_fences text) with
      | Some v => exists pl, read_list v = Some pl
      | None => True
      end
  | _ => True
  end.

(** What [PackingListDisplay] shows for a well-typed category. *)
Definition group_of (c : Typed.Category) : Group :=
  mkGroup (Some (JString (Typed.name c))) (map JString (Typed.items c)).

(** The message a chat element shows: the role its icon stands for and the
    text in its box. *)
Definition message_of (b : View.Bubble) : Message :=
  mkMessage (match View.avatar_icon b with
             | View.MessageSquare => user
             | View.Bot => assistant
             end)
            (View.body b).

(** The specification's example as a typed value. *)
Definition clothing_list : Typed.PackingList :=
  Typed.mkPackingList
    [Typed.mkCategory (lit "Clothing") [lit "Shirt"; lit "Pants"]].

(** * Properties *)

#[local] Arguments N.eqb : simpl nomatch.
#[local] Arguments N.leb : simpl nomatch.
#[local] Arguments N.ltb : simpl nomatch.

(** ** Trimming *)

Lemma trimStart_nil_iff s : trimStart s = [] <-> blank s = true.
Proof.
  induction s as [|c t IH]; simpl; [tauto|].
  destruct (isWhiteSpace c); simpl; [exact IH|].
  split; discriminate.
Qed.

Lemma blank_rev s : blank (rev s) = blank s.
Proof.
  unfold blank. induction s as [|c t IH]; simpl; [reflexivity|].
  rewrite forallb_app, IH. simpl. rewrite andb_true_r. apply andb_comm.
Qed.

Lemma blank_trimStart s : blank (trimStart s) = blank s.
Proof.
  induction s as [|c t IH]; simpl; [reflexivity|].
  destruct (isWhiteSpace c) eqn:E; simpl; [exact IH|].
  now rewrite E.
Qed.

Lemma is_empty_nil_iff (s : jsstring) : is_empty s = true <-> s = [].
Proof. destruct s; simpl; split; congruence. Qed.

(** [!input.trim()] holds exactly for the blank strings. *)
Lemma is_empty_trim s : is_empty (trim s) = blank s.
Proof.
  apply eq_true_iff_eq. rewrite is_empty_nil_iff. unfold trim, trimEnd.
  rewrite <- (blank_trimStart s), <- (blank_rev (trimStart s)).
  rewrite <- trimStart_nil_iff.
  split; intros H.
  - apply (f_equal (@rev N)) in H. now rewrite rev_involutive in H.
  - now rewrite H.
Qed.

Lemma trimStart_idem s : trimStart (trimStart s) = trimStart s.
Proof.
  induction s as [|c t IH]; simpl; [reflexivity|].
  destruct (isWhiteSpace c) eqn:E; [exact IH|]. simpl. now rewrite E.
Qed.

Lemma trimStart_snoc l c :
  isWhiteSpace c = false -> trimStart (l ++ [c]) = trimStart l ++ [c].
Proof.
  intros Hc. induction l as [|d l IH]; simpl.
  - now rewrite Hc.
  - destruct (isWhiteSpace d); [exact IH | reflexivity].
Qed.

Lemma trimEnd_idem s : trimEnd (trimEnd s) = trimEnd s.
Proof. unfold trimEnd. now rewrite rev_involutive, trimStart_idem. Qed.

Lemma trimStart_trimEnd s :
  trimStart (trimEnd (trimStart s)) = trimEnd (trimStart s).
Proof.
  destruct (trimStart s) as [|c t] eqn:E; [reflexivity|].
  assert (Hc : isWhiteSpace c = false).
  { clear -E. induction s as [|d s IH]; simpl in E; [discriminate|].
    destruct (isWhiteSpace d) eqn:Ed; [auto|]. now inversion E; subst. }
  unfold trimEnd. simpl rev. rewrite trimStart_snoc by exact Hc.
  rewrite rev_app_distr. simpl. now rewrite Hc.
Qed.

Lemma trim_idem s : trim (trim s) = trim s.
Proof.
  unfold trim. rewrite trimStart_trimEnd. apply trimEnd_idem.
Qed.

(** ** The fence regular expression *)

Lemma fence_match_no_backtick s : no_backtick s -> fence_match s = 0.
Proof.
  intros H. unfold fence_match.
  destruct s as [|c t]; [reflexivity|].
  inversion H as [|? ? Hc Ht]; subst.
  assert (E : (96 =? c)%N = false) by (apply N.eqb_neq; congruence).
  cbn. rewrite E. cbn.
  destruct t as [|d t']; [now rewrite andb_false_r|].
  inversion Ht as [|? ? Hd _]; subst.
  assert (E' : (96 =? d)%N = false) by (apply N.eqb_neq; congruence).
  rewrite E'. cbn. now rewrite andb_false_r.
Qed.

Lemma replace_fences_no_backtick s :
  no_backtick s -> replace_fences 0 s = s.
Proof.
  induction s as [|c t IH]; intros H; [reflexivity|].
  cbn [replace_fences]. rewrite (fence_match_no_backtick _ H).
  inversion H; subst. now rewrite IH.
Qed.

Lemma no_backtick_trimStart s : no_backtick s -> no_backtick (trimStart s).
Proof.
  induction 1 as [|c t Hc Ht IH]; simpl; [constructor|].
  destruct (isWhiteSpace c); [exact IH | now constructor].
Qed.

Lemma no_backtick_trim s : no_backtick s -> no_backtick (trim s).
Proof.
  intros H. unfold trim, trimEnd, no_backtick.
  apply Forall_rev, no_backtick_trimStart, Forall_rev.
  now apply no_backtick_trimStart.
Qed.

Lemma replace_fences_short k s : List.length s <= k -> replace_fences k s = [].
Proof.
  revert k. induction s as [|c t IH]; intros k H; [reflexivity|].
  simpl in H. destruct k as [|k]; [lia|]. simpl. apply IH. lia.
Qed.

Lemma fence_match_le s : fence_match s <= List.length s.
Proof.
  unfold fence_match.
  destruct s as [|a [|b [|c [|d [|e [|f [|g [|h r]]]]]]]]; cbn;
    repeat match goal with
           | |- context [N.eqb ?x ?y] => destruct (N.eqb x y); cbn
           end; lia.
Qed.

Ltac split_eqb :=
  repeat match goal with
         | |- context [N.eqb ?x ?y] =>
             let E := fresh "E" in
             destruct (N.eqb x y) eqn:E; cbn;
             [apply N.eqb_eq in E; try subst y | clear E]
         end.

(** Appending the closing fence changes the match at the head of a
    non-empty text only when the text is exactly the opening fence, whose
    optional line feed is then the closing fence's. *)
Lemma fence_match_closing p :
  p <> [] ->
  fence_match (p ++ closing) = fence_match p
  \/ (p = fence_json /\ fence_match (p ++ closing) = 8).
Proof.
  intros Hp. unfold fence_match, closing.
  destruct p as [|a [|b [|c [|d [|e [|f [|g [|h r]]]]]]]];
    [congruence | cbn; split_eqb; auto ..].
Qed.

Lemma replace_fences_closing p k :
  k <= S (List.length p) ->
  replace_fences k (p ++ closing) = replace_fences k p.
Proof.
  revert k. induction p as [|c t IH]; intros k Hk.
  - destruct k as [|[|k]]; [reflexivity | reflexivity | simpl in Hk; lia].
  - destruct k as [|k].
    + change ((c :: t) ++ closing) with (c :: (t ++ closing)).
      cbn [replace_fences].
      change (c :: (t ++ closing)) with ((c :: t) ++ closing).
      pose proof (fence_match_le (c :: t)) as Hle.
      destruct (fence_match_closing (c :: t)) as [E | [E1 E2]]; [discriminate | |].
      * rewrite E. destruct (fence_match (c :: t)) as [|m].
        -- now rewrite IH by lia.
        -- apply IH. simpl in Hle. lia.
      * rewrite E2. injection E1 as -> ->. reflexivity.
    + simpl. apply IH. simpl in Hk. lia.
Qed.

(** A fenced response is cleaned to the same text as the bare payload. *)
Lemma strip_fences_wrap p : strip_fences (wrap_fence p) = strip_fences p.
Proof.
  unfold strip_fences. f_equal.
  change (replace_fences 0 (wrap_fence p))
    with (replace_fences 0 (p ++ closing)).
  apply replace_fences_closing. lia.
Qed.

Lemma strip_fences_no_backtick p : no_backtick p -> strip_fences p = trim p.
Proof. intros H. unfold strip_fences. now rewrite replace_fences_no_backtick. Qed.

(** ** [JSON.parse] never runs out of recursion budget *)

Lemma bindP_Ok {A B} (r : presult A) (k : A -> jsstring -> presult B) b rest :
  bindP r k = Ok b rest -> exists a r1, r = Ok a r1 /\ k a r1 = Ok b rest.
Proof. destruct r; simpl; [eauto | discriminate | discriminate]. Qed.

Lemma bindP_no_fuel {A B} (r : presult A) (k : A -> jsstring -> presult B) :
  r <> OutOfFuel -> (forall a r1, r = Ok a r1 -> k a r1 <> OutOfFuel) ->
  bindP r k <> OutOfFuel.
Proof. destruct r; simpl; [eauto | discriminate | congruence]. Qed.

Lemma skip_ws_le s : List.length (skip_ws s) <= List.length s.
Proof.
  induction s as [|c t IH]; simpl; [lia|].
  destruct (isJsonWs c); simpl; lia.
Qed.

Ltac break_match :=
  match goal with
  | H : context [match ?x with _ => _ end] |- _ => destruct x eqn:?
  | H : context [if ?x then _ else _] |- _ => destruct x eqn:?
  end.

Ltac break_bind :=
  match goal with
  | H : bindP _ _ = Ok _ _ |- _ =>
      apply bindP_Ok in H; destruct H as (? & ? & ? & H)
  end.

Ltac ok_inv :=
  match goal with
  | H : Ok _ _ = Ok _ _ |- _ => inversion H; subst; clear H
  | H : SyntaxError = Ok _ _ |- _ => discriminate H
  | H : OutOfFuel = Ok _ _ |- _ => discriminate H
  end.

Lemma parse_string_body_le s str r :
  parse_string_body s = Ok str r -> List.length r <= List.length s.
Proof.
  remember (List.length s) as n eqn:Hn.
  assert (Hle : List.length s <= n) by lia. clear Hn.
  revert s str r Hle.
  induction n as [|n IH]; intros s str r Hle H;
    (destruct s as [|c t]; [discriminate|]); simpl in Hle; [lia|].
  cbn [parse_string_body] in H.
  repeat (first [ok_inv | break_bind | break_match]);
    simpl in *;
    try match goal with
        | H : parse_string_body ?x = Ok _ _ |- _ =>
            apply IH in H; simpl in *; lia
        end; lia.
Qed.

Lemma span_digits_le s : List.length (snd (span_digits s)) <= List.length s.
Proof.
  induction s as [|c t IH]; simpl; [lia|].
  destruct (isDigit c); [|simpl; lia].
  destruct (span_digits t); simpl in *; lia.
Qed.

Lemma parse_number_le s n r :
  parse_number s = Ok n r -> List.length r <= List.length s.
Proof.
  unfold parse_number, parse_int, parse_frac, parse_exp. intros H.
  repeat (first [ok_inv | break_bind | break_match]);
    repeat match goal with
           | H : span_digits ?x = (_, _) |- _ =>
               let L := fresh "L" in
               pose proof (span_digits_le x) as L; rewrite H in L; clear H
           | H : (_, _) = (_, _) |- _ => inversion H; subst; clear H
           end; simpl in *; lia.
Qed.

Lemma skipn_le {A} n (l : list A) : List.length (skipn n l) <= List.length l.
Proof. rewrite length_skipn. lia. Qed.

Lemma parse_scalar_le s v r :
  parse_scalar s = Ok v r -> List.length r <= List.length s.
Proof.
  unfold parse_scalar. intros H.
  destruct (startsWith (lit "null") s);
    [injection H as _ <-; exact (skipn_le 4 s)|].
  destruct (startsWith (lit "true") s);
    [injection H as _ <-; exact (skipn_le 4 s)|].
  destruct (startsWith (lit "false") s);
    [injection H as _ <-; exact (skipn_le 5 s)|].
  break_bind. ok_inv. eapply parse_number_le; eauto.
Qed.

Ltac ws_le :=
  repeat match goal with
         | H : skip_ws ?x = _ :: _ |- _ =>
             let L := fresh "L" in
             pose proof (skip_ws_le x) as L; rewrite H in L; simpl in L;
             revert H
         end; intros.

Ltac string_le :=
  repeat match goal with
         | H : parse_string_body _ = Ok _ _ |- _ =>
             apply parse_string_body_le in H
         | H : parse_scalar _ = Ok _ _ |- _ =>
             apply parse_scalar_le in H; simpl in H
         end.

(** No parsing function returns more text than it was given. *)
Lemma parse_rest_le fuel :
  (forall s v r, parse_value fuel s = Ok v r -> List.length r <= List.length s)
  /\ (forall s vs r,
         parse_elements fuel s = Ok vs r -> List.length r <= List.length s)
  /\ (forall s ms r,
         parse_members fuel s = Ok ms r -> List.length r <= List.length s).
Proof.
  induction fuel as [|f (IHv & IHe & IHm)];
    [repeat split; intros; discriminate|].
  repeat split; intros s ? r H; cbn [parse_value parse_elements parse_members] in H;
    repeat (first [ok_inv | break_bind | break_match]);
    ws_le; string_le;
    repeat match goal with
           | H : parse_value f _ = Ok _ _ |- _ => apply IHv in H
           | H : parse_elements f _ = Ok _ _ |- _ => apply IHe in H
           | H : parse_members f _ = Ok _ _ |- _ => apply IHm in H
           end; simpl in *; lia.
Qed.

Lemma parse_string_body_no_fuel s : parse_string_body s <> OutOfFuel.
Proof.
  remember (List.length s) as n eqn:Hn.
  assert (Hle : List.length s <= n) by lia. clear Hn.
  revert s Hle.
  induction n as [|n IH]; intros s Hle;
    (destruct s as [|c t]; [discriminate|]); simpl in Hle; [lia|].
  cbn [parse_string_body].
  destruct (c =? 34)%N; [discriminate|].
  destruct (c =? 92)%N.
  - destruct t as [|e t']; [discriminate|].
    destruct (e =? 117)%N.
    + destruct t' as [|h1 [|h2 [|h3 [|h4 t'']]]]; try discriminate.
      destruct (hex4 h1 h2 h3 h4); [|discriminate].
      apply bindP_no_fuel; [apply IH; simpl in *; lia | discriminate].
    + destruct (unescape e); [|discriminate].
      apply bindP_no_fuel; [apply IH; simpl in *; lia | discriminate].
  - destruct (c <? 32)%N; [discriminate|].
    apply bindP_no_fuel; [apply IH; lia | discriminate].
Qed.

Lemma parse_scalar_no_fuel s : parse_scalar s <> OutOfFuel.
Proof.
  unfold parse_scalar, parse_number, parse_int, parse_frac, parse_exp.
  repeat match goal with
         | |- context [match ?x with _ => _ end] => destruct x; simpl
         end; discriminate.
Qed.

Lemma parse_fuel_enough fuel :
  (forall s, 2 * List.length s + 1 <= fuel -> parse_value fuel s <> OutOfFuel)
  /\ (forall s, 2 * List.length s + 2 <= fuel ->
                parse_elements fuel s <> OutOfFuel)
  /\ (forall s, 2 * List.length s + 2 <= fuel ->
                parse_members fuel s <> OutOfFuel).
Proof.
  induction fuel as [|f (IHv & IHe & IHm)];
    [repeat split; intros; lia|].
  pose proof (parse_rest_le f) as (Lv & Le & Lm).
  repeat split; intros s Hs; cbn [parse_value parse_elements parse_members].
  - destruct (skip_ws s) as [|c r] eqn:Hws; [discriminate|]. ws_le.
    destruct (c =? 91)%N.
    { destruct (skip_ws r) as [|c' r']; [discriminate|].
      destruct (c' =? 93)%N; [discriminate|].
      apply bindP_no_fuel; [apply IHe; lia | discriminate]. }
    destruct (c =? 123)%N.
    { destruct (skip_ws r) as [|c' r']; [discriminate|].
      destruct (c' =? 125)%N; [discriminate|].
      apply bindP_no_fuel; [apply IHm; lia | discriminate]. }
    destruct (c =? 34)%N.
    { apply bindP_no_fuel; [apply parse_string_body_no_fuel | discriminate]. }
    apply parse_scalar_no_fuel.
  - apply bindP_no_fuel; [apply IHv; lia|].
    intros v r Hv. apply Lv in Hv.
    destruct (skip_ws r) as [|c r'] eqn:Hws; [discriminate|]. ws_le.
    destruct (c =? 44)%N.
    { apply bindP_no_fuel; [apply IHe; lia | discriminate]. }
    destruct (c =? 93)%N; discriminate.
  - destruct (skip_ws s) as [|q r] eqn:Hws; [discriminate|]. ws_le.
    destruct (q =? 34)%N; [|discriminate].
    apply bindP_no_fuel; [apply parse_string_body_no_fuel|].
    intros key r1 Hk. apply parse_string_body_le in Hk.
    destruct (skip_ws r1) as [|c1 r2] eqn:Hws1; [discriminate|]. ws_le.
    destruct (c1 =? 58)%N; [|discriminate].
    apply bindP_no_fuel; [apply IHv; lia|].
    intros v r3 Hv. apply Lv in Hv.
    destruct (skip_ws r3) as [|c3 r4] eqn:Hws3; [discriminate|]. ws_le.
    destruct (c3 =? 44)%N.
    { apply bindP_no_fuel; [apply IHm; lia | discriminate]. }
    destruct (c3 =? 125)%N; discriminate.
Qed.

(** [JSON_parse] answers [None] only for a syntax error: the budget it
    gives the parser is never exhausted. *)
Lemma JSON_parse_total text :
  parse_value (fuel_for text) text <> OutOfFuel.
Proof. apply parse_fuel_enough. unfold fuel_for. lia. Qed.

(** ** The submit handler *)

Lemma handleSubmit_proceeds key s :
  blank (input s) = false -> isLoading s = false ->
  handleSubmit key s = generatePackingList key s.
Proof.
  intros Hb Hl. unfold handleSubmit. now rewrite is_empty_trim, Hb, Hl.
Qed.

Lemma handleSubmit_rejects key s :
  blank (input s) = true \/ isLoading s = true -> handleSubmit key s = Done s.
Proof.
  intros H. unfold handleSubmit. rewrite is_empty_trim.
  destruct H as [-> | ->]; [reflexivity | now rewrite orb_true_r].
Qed.

Lemma generatePackingList_await key s :
  no_api_key key = false ->
  exists resume,
    generatePackingList key s
    = Await (setApiKeyError false (setIsLoading true s)) (prompt (input s)) resume
    /\ tidy resume.
Proof.
  intros Hk. unfold generatePackingList. rewrite Hk.
  eexists; split; [reflexivity|].
  intros [text | error] st.
  - destruct (JSON_parse (strip_fences text)); simpl; eauto.
  - simpl; eauto.
Qed.

(** The state a failed call leaves behind. *)
Lemma settled_rejected key s error :
  no_api_key key = false ->
  blank (input s) = false ->
  isLoading s = false ->
  settled (handleSubmit key s) (Rejected error)
  = mkAppState (messages s ++ exchange (input s) (errorMessage error))
               [] false (packingList s) true.
Proof.
  intros Hk Hb Hl.
  rewrite (handleSubmit_proceeds key s Hb Hl).
  unfold generatePackingList. now rewrite Hk.
Qed.

(** ** The claims about a single submission *)

(** C1. When the generation call succeeds but the cleaned response text is
    not JSON, the submission appends the user's raw text and the fixed
    "invalid response format" reply, leaves the configuration gate unset,
    and leaves the stored packing list as it was. *)
Theorem malformed_response_keeps_packing_list key s text :
  no_api_key key = false ->
  blank (input s) = false ->
  isLoading s = false ->
  JSON_parse (strip_fences text) = None ->
  let started := handleSubmit key s in
  let s' := settled started (Resolved text) in
  outbound started = [prompt (input s)]
  /\ messages s' = messages s ++ exchange (input s) msg_invalid_format
  /\ apiKeyError s' = false
  /\ packingList s' = packingList s.
Proof.
  intros Hk Hb Hl Hp. cbv zeta.
  rewrite (handleSubmit_proceeds key s Hb Hl).
  unfold generatePackingList. rewrite Hk. simpl. now rewrite Hp.
Qed.

Lemma malformed_response_witness :
  let text := lit "Sure! Here is your packing list." in
  let started := handleSubmit key0 seeded in
  let s' := settled started (Resolved text) in
  JSON_parse (strip_fences text) = None
  /\ messages s' = messages seeded ++ exchange trip msg_invalid_format
  /\ apiKeyError s' = false
  /\ packingList s' = clothing.
Proof.
  cbv zeta. split; [reflexivity|].
  apply (malformed_response_keeps_packing_list key0 seeded
           (lit "Sure! Here is your packing list."));
    reflexivity.
Defined.

(** C5. With no credential configured, submitting non-blank text appends
    exactly the user's text and the fixed configuration-error reply,
    issues no outbound call, sets the gate and clears the input. *)
Theorem missing_credential_short_circuit key s :
  no_api_key key = true ->
  blank (input s) = false ->
  isLoading s = false ->
  handleSubmit key s
  = Done (mkAppState (messages s ++ exchange (input s) msg_not_configured)
                     [] false (packingList s) true)
  /\ outbound (handleSubmit key s) = [].
Proof.
  intros Hk Hb Hl.
  rewrite (handleSubmit_proceeds key s Hb Hl).
  unfold generatePackingList. rewrite Hk.
  unfold setInput, setMessages, setApiKeyError. simpl. now rewrite Hl.
Qed.

Lemma missing_credential_witness :
  handleSubmit None (setInput (lit "X") (initial None))
  = Done (mkAppState (exchange (lit "X") msg_not_configured) [] false JNull true)
  /\ outbound (handleSubmit None (setInput (lit "X") (initial None))) = [].
Proof.
  apply (missing_credential_short_circuit None (setInput (lit "X") (initial None)));
    reflexivity.
Defined.

(** C6. When the call succeeds and the cleaned text parses, the stored
    packing list becomes exactly the parsed value (nothing of the old one
    is kept, order as parsed) and exactly two messages are appended: the
    user's raw text and the fixed success reply. *)
Theorem successful_generation_replaces_list key s text parsedList :
  no_api_key key = false ->
  blank (input s) = false ->
  isLoading s = false ->
  JSON_parse (strip_fences text) = Some parsedList ->
  settled (handleSubmit key s) (Resolved text)
  = mkAppState (messages s ++ exchange (input s) msg_generated)
               [] false parsedList false.
Proof.
  intros Hk Hb Hl Hp.
  rewrite (handleSubmit_proceeds key s Hb Hl).
  unfold generatePackingList. rewrite Hk. simpl. now rewrite Hp.
Qed.

Lemma successful_generation_witness :
  let stale := setPackingList (JObject [(lit "categories", JArray [])]) seeded in
  JSON_parse (strip_fences clothing_json) = Some clothing
  /\ settled (handleSubmit key0 stale) (Resolved clothing_json)
     = mkAppState (messages seeded ++ exchange trip msg_generated)
                  [] false clothing false.
Proof.
  cbv zeta. split; [reflexivity|].
  apply (successful_generation_replaces_list key0
           (setPackingList (JObject [(lit "categories", JArray [])]) seeded)
           clothing_json clothing); reflexivity.
Defined.

(** C7 (as stated, refuted). A thrown value that is not an [Error] gets
    neither the invalid-key, nor the rate-limit, nor the generic retry
    reply: it gets a fourth fixed text. *)
Lemma non_error_failure_gets_fourth_message :
  let s' := settled (handleSubmit key0 (setInput trip (initial key0)))
                    (Rejected OtherValue) in
  messages s' = exchange trip msg_unexpected
  /\ msg_unexpected <> msg_retry
  /\ msg_unexpected <> msg_invalid_key
  /\ msg_unexpected <> msg_rate_limit.
Proof. cbv zeta. repeat split; discriminate. Qed.

(** C7 (amended). On any failure of the generation call the submission
    appends the user's raw text and the reply chosen by [errorMessage], and
    sets the gate whatever the failure: for an [Error] whose message
    contains [API_KEY_INVALID] the invalid-key reply, otherwise for one
    containing [RATE_LIMIT_EXCEEDED] the rate-limit reply, for any other
    [Error] the generic retry reply, and for a thrown value that is not an
    [Error] the fixed "unexpected error" reply. *)
Theorem failed_call_classified key s error :
  no_api_key key = false ->
  blank (input s) = false ->
  isLoading s = false ->
  settled (handleSubmit key s) (Rejected error)
  = mkAppState (messages s ++ exchange (input s) (errorMessage error))
               [] false (packingList s) true
  /\ (forall m, error = ErrorObject m ->
         includes m (lit "API_KEY_INVALID") = true ->
         errorMessage error = msg_invalid_key)
  /\ (forall m, error = ErrorObject m ->
         includes m (lit "API_KEY_INVALID") = false ->
         includes m (lit "RATE_LIMIT_EXCEEDED") = true ->
         errorMessage error = msg_rate_limit)
  /\ (forall m, error = ErrorObject m ->
         includes m (lit "API_KEY_INVALID") = false ->
         includes m (lit "RATE_LIMIT_EXCEEDED") = false ->
         errorMessage error = msg_retry)
  /\ (error = OtherValue -> errorMessage error = msg_unexpected).
Proof.
  intros Hk Hb Hl.
  split; [now apply settled_rejected|].
  repeat split; intros; subst; simpl;
    repeat match goal with H : includes _ _ = _ |- _ => rewrite H; clear H end;
    reflexivity.
Qed.

Lemma failed_call_witness :
  let quota := ErrorObject (lit "[429] RATE_LIMIT_EXCEEDED: quota exhausted") in
  settled (handleSubmit key0 seeded) (Rejected quota)
  = mkAppState (messages seeded ++ exchange trip (errorMessage quota))
               [] false clothing true
  /\ errorMessage quota = msg_rate_limit.
Proof.
  cbv zeta.
  destruct (failed_call_classified key0 seeded
              (ErrorObject (lit "[429] RATE_LIMIT_EXCEEDED: quota exhausted"))
              eq_refl eq_refl eq_refl) as (H1 & _ & H2 & _).
  split; [exact H1 | exact (H2 _ eq_refl eq_refl eq_refl)].
Defined.

(** C8. After every submission that is not a no-op the input is empty and
    the pending flag is down, whatever the outcome: at once when no
    credential is configured, and otherwise when the call settles, on
    whatever state the continuation resumes. *)
Theorem submission_always_cleans_up key s :
  blank (input s) = false ->
  isLoading s = false ->
  (forall o, let s' := settled (handleSubmit key s) o in
             input s' = [] /\ isLoading s' = false)
  /\ match handleSubmit key s with
     | Done s' => input s' = [] /\ isLoading s' = false
     | Await _ _ resume =>
         forall o st, input (resume o st) = [] /\ isLoading (resume o st) = false
     end.
Proof.
  intros Hb Hl.
  rewrite (handleSubmit_proceeds key s Hb Hl).
  destruct (no_api_key key) eqn:Hk.
  - unfold generatePackingList. rewrite Hk. simpl. auto.
  - destruct (generatePackingList_await key s Hk) as (resume & -> & Ht).
    split; [intros o; simpl | intros o st];
      match goal with
      | |- context [resume ?o ?st] => now destruct (Ht o st) as (? & ? & _)
      end.
Qed.

Lemma submission_cleanup_witness :
  let after o := settled (handleSubmit key0 seeded) o in
  (input (after (Resolved clothing_json)) = []
   /\ isLoading (after (Resolved clothing_json)) = false)
  /\ (input (after (Resolved (lit "not json"))) = []
      /\ isLoading (after (Resolved (lit "not json"))) = false)
  /\ (input (after (Rejected invalid_key_error)) = []
      /\ isLoading (after (Rejected invalid_key_error)) = false).
Proof.
  cbv zeta.
  pose proof (proj1 (submission_always_cleans_up key0 seeded eq_refl eq_refl))
    as H.
  split; [exact (H (Resolved clothing_json))|].
  split; [exact (H (Resolved (lit "not json")))
         | exact (H (Rejected invalid_key_error))].
Defined.

(** C10. The parsed response is not validated: whatever value the cleaned
    text parses to is stored as the packing list and announced with the
    success reply; the texts [42], [[]] and [{}] are such values; and
    [PackingListDisplay] reads [categories] of whatever it is given, so it
    throws unless that is an object whose [categories] is an array. *)
Theorem any_json_value_is_stored key s text v :
  no_api_key key = false ->
  blank (input s) = false ->
  isLoading s = false ->
  JSON_parse (strip_fences text) = Some v ->
  (let s' := settled (handleSubmit key s) (Resolved text) in
   packingList s' = v
   /\ messages s' = messages s ++ exchange (input s) msg_generated)
  /\ (has_categories_array v = false -> PackingListDisplay v = None)
  /\ JSON_parse (strip_fences (lit "42")) = Some (JNumber (lit "42"))
  /\ JSON_parse (strip_fences (lit "[]")) = Some (JArray [])
  /\ JSON_parse (strip_fences (lit "{}")) = Some (JObject [])
  /\ PackingListDisplay (JNumber (lit "42")) = None
  /\ PackingListDisplay (JArray []) = None
  /\ PackingListDisplay (JObject []) = None.
Proof.
  intros Hk Hb Hl Hp. split; [|split; [|repeat split]].
  - cbv zeta. rewrite (handleSubmit_proceeds key s Hb Hl).
    unfold generatePackingList. rewrite Hk. simpl. now rewrite Hp.
  - unfold PackingListDisplay, has_categories_array.
    destruct (dot (Some v) (lit "categories")) as [[[]|]|];
      simpl; congruence.
Qed.

Lemma any_json_value_witness :
  let s' := settled (handleSubmit key0 seeded) (Resolved (lit " 42 ")) in
  packingList s' = JNumber (lit "42")
  /\ messages s' = messages seeded ++ exchange trip msg_generated
  /\ PackingListDisplay (packingList s') = None.
Proof.
  cbv zeta.
  destruct (any_json_value_is_stored key0 seeded (lit " 42 ") (JNumber (lit "42"))
              eq_refl eq_refl eq_refl eq_refl) as ((H1 & H2) & H3 & _).
  split; [exact H1|]. split; [exact H2|].
  rewrite H1. exact (H3 eq_refl).
Defined.

(** ** Fence stripping *)

Lemma no_backtickb_sound s : no_backtickb s = true -> no_backtick s.
Proof.
  unfold no_backtickb, no_backtick. rewrite forallb_forall, Forall_forall.
  intros H c Hc. specialize (H c Hc).
  apply negb_true_iff, N.eqb_neq in H. exact H.
Qed.

(** C2 (as stated, refuted). Stripping is not idempotent: on a backtick, a
    line feed and five backticks the first pass leaves three backticks,
    which the second pass removes. It is not lossless either: a fence
    marker inside the payload is removed with the wrapping, so the fenced
    response parses to another value than the payload does. *)
Lemma fence_stripping_not_idempotent_nor_lossless :
  let t := ([96; 10; 96; 96; 96; 96; 96])%N in
  strip_fences (strip_fences t) <> strip_fences t
  /\ strip_fences (wrap_fence fenced_name_json) <> fenced_name_json
  /\ JSON_parse (strip_fences (wrap_fence fenced_name_json))
     <> JSON_parse fenced_name_json.
Proof. cbv zeta. repeat split; vm_compute; discriminate. Qed.

Lemma startsWith_iff pat : forall s,
  startsWith pat s = true <-> exists post, s = pat ++ post.
Proof.
  induction pat as [|p pat IH]; intros s; simpl.
  - split; [eauto | reflexivity].
  - destruct s as [|c s]; [split; [discriminate | intros [? ?]; discriminate]|].
    rewrite andb_true_iff, N.eqb_eq, IH. split.
    + intros [-> [post ->]]. eauto.
    + intros [post H]. injection H as -> ->. eauto.
Qed.

Lemma includes_iff pat : forall s,
  includes s pat = true <-> exists pre post, s = pre ++ pat ++ post.
Proof.
  induction s as [|c s IH]; cbn [includes]; rewrite orb_true_iff, startsWith_iff.
  - split.
    + intros [[post H] | H]; [exists [], post; exact H | discriminate].
    + intros (pre & post & H). left.
      destruct pre; [eauto | discriminate].
  - rewrite IH. split.
    + intros [[post H] | (pre & post & H)].
      * exists [], post. exact H.
      * exists (c :: pre), post. now rewrite H.
    + intros ([|d pre] & post & H).
      * left. eauto.
      * right. injection H as -> ->. eauto.
Qed.

(** *** Texts without three backticks in a row *)

Lemma startsWith_app_l a b s :
  startsWith (a ++ b) s = true -> startsWith a s = true.
Proof.
  rewrite !startsWith_iff. intros [post ->]. rewrite <- app_assoc. eauto.
Qed.

Lemma includes_head_false s pat :
  includes s pat = false -> startsWith pat s = false.
Proof. destruct s; cbn [includes]; intros H; now apply orb_false_elim in H. Qed.

Lemma fence_match_none s :
  includes s backticks = false -> fence_match s = 0.
Proof.
  intros H. pose proof (includes_head_false _ _ H) as H3. unfold fence_match.
  destruct (startsWith fence_json s) eqn:E1.
  { apply startsWith_app_l in E1. congruence. }
  destruct (startsWith (newline ++ backticks) s) eqn:E2; [|now rewrite H3].
  destruct s as [|c t]; [discriminate|].
  cbn [includes] in H. apply orb_false_elim in H as [_ H].
  apply includes_head_false in H.
  cbn [newline app startsWith] in E2. apply andb_true_iff in E2 as [_ E2].
  change (startsWith backticks t = true) in E2. congruence.
Qed.

Lemma replace_fences_none s :
  includes s backticks = false -> replace_fences 0 s = s.
Proof.
  induction s as [|c t IH]; intros H; [reflexivity|].
  cbn [replace_fences]. rewrite (fence_match_none _ H).
  cbn [includes] in H. apply orb_false_elim in H as [_ H]. now rewrite IH.
Qed.

Lemma trimStart_split s : exists pre, s = pre ++ trimStart s.
Proof.
  induction s as [|c t [pre IH]]; [now exists []|].
  simpl. destruct (isWhiteSpace c); [|now exists []].
  exists (c :: pre). simpl. now rewrite <- IH.
Qed.

Lemma trim_split s : exists pre post, s = pre ++ trim s ++ post.
Proof.
  destruct (trimStart_split s) as [pre Hpre].
  destruct (trimStart_split (rev (trimStart s))) as [post Hpost].
  exists pre, (rev post). unfold trim, trimEnd. rewrite <- rev_app_distr, <- Hpost.
  now rewrite rev_involutive.
Qed.

Lemma includes_inside pre u post pat :
  includes (pre ++ u ++ post) pat = false -> includes u pat = false.
Proof.
  intros H. destruct (includes u pat) eqn:E; [|reflexivity].
  apply includes_iff in E as (a & b & ->).
  assert (T : includes (pre ++ (a ++ pat ++ b) ++ post) pat = true).
  { apply includes_iff. exists (pre ++ a), (b ++ post).
    now rewrite <- !app_assoc. }
  congruence.
Qed.

Lemma includes_trim s pat : includes s pat = false -> includes (trim s) pat = false.
Proof.
  intros H. destruct (trim_split s) as (pre & post & E).
  rewrite E in H. exact (includes_inside _ _ _ _ H).
Qed.

(** *** Counting backticks *)

Lemma ticks_cons c s : ticks (c :: s) = (if (c =? 96)%N then 1 else 0) + ticks s.
Proof.
  unfold ticks. destruct (N.eqb_spec c 96) as [-> | Hc].
  - now rewrite count_occ_cons_eq.
  - now rewrite count_occ_cons_neq.
Qed.

Lemma ticks_trimStart s : ticks (trimStart s) = ticks s.
Proof.
  induction s as [|c t IH]; [reflexivity|]. simpl trimStart.
  destruct (isWhiteSpace c) eqn:Hc; [|reflexivity].
  rewrite IH, ticks_cons.
  destruct (N.eqb_spec c 96) as [-> | _]; [discriminate Hc | reflexivity].
Qed.

Lemma ticks_trim s : ticks (trim s) = ticks s.
Proof.
  unfold trim, trimEnd, ticks. rewrite count_occ_rev.
  fold (ticks (trimStart (rev (trimStart s)))). rewrite ticks_trimStart.
  unfold ticks. rewrite count_occ_rev. apply ticks_trimStart.
Qed.

Lemma ticks_replace_le s : forall k, ticks (replace_fences k s) <= ticks s.
Proof.
  induction s as [|c t IH]; intros k; [simpl; lia|].
  cbn [replace_fences]. rewrite (ticks_cons c t). destruct k as [|k].
  - destruct (fence_match (c :: t)) as [|m].
    + rewrite ticks_cons. specialize (IH 0). lia.
    + specialize (IH m). lia.
  - specialize (IH k). lia.
Qed.

(** A match at the head begins with a backtick, or is a line feed and
    three backticks. *)
Lemma fence_match_head c t m :
  fence_match (c :: t) = S m ->
  c = 96%N \/ (m = 3 /\ exists t', t = 96%N :: 96%N :: 96%N :: t').
Proof.
  unfold fence_match.
  destruct t as [|d [|e [|f t']]]; cbn; split_eqb; intros H;
    try discriminate H; auto.
  right. injection H as <-. eauto.
Qed.

Lemma fence_match_zero s : fence_match s = 0 -> startsWith backticks s = false.
Proof.
  unfold fence_match.
  destruct (startsWith fence_json s);
    [destruct (startsWith newline (skipn 7 s)); discriminate|].
  destruct (startsWith (newline ++ backticks) s); [discriminate|].
  now destruct (startsWith backticks s).
Qed.

Lemma ticks_replace_lt s :
  includes s backticks = true -> ticks (replace_fences 0 s) < ticks s.
Proof.
  induction s as [|c t IH]; intros H; [discriminate|].
  cbn [replace_fences]. rewrite (ticks_cons c t).
  destruct (fence_match (c :: t)) as [|m] eqn:E.
  - apply fence_match_zero in E. cbn [includes] in H. rewrite E in H.
    rewrite ticks_cons. specialize (IH H). lia.
  - destruct (fence_match_head c t m E) as [-> | (-> & t' & ->)].
    + pose proof (ticks_replace_le t m). simpl. lia.
    + cbn [replace_fences]. pose proof (ticks_replace_le t' 0).
      rewrite !(ticks_cons 96). simpl. lia.
Qed.

(** Cleaning leaves a text as trimming does exactly when the text has no
    three backticks in a row. *)
Lemma strip_fences_is_trim_iff s :
  strip_fences s = trim s <-> includes s backticks = false.
Proof.
  unfold strip_fences. split.
  - intros H. destruct (includes s backticks) eqn:E; [|reflexivity].
    apply ticks_replace_lt in E. apply (f_equal ticks) in H.
    rewrite !ticks_trim in H. lia.
  - intros H. now rewrite replace_fences_none.
Qed.

(** C2 (amended). A response wrapped in a [json] fence is cleaned to the
    very text the bare payload is cleaned to, for every payload, so the two
    parse alike. The cleaned text is the trimmed payload exactly when the
    payload has no three backticks in a row; such a payload comes back
    unaltered when it has no surrounding white space, and cleaning its
    fenced response again changes nothing. For every text, cleaning twice
    gives what cleaning once gives exactly when the once-cleaned text has
    no three backticks in a row. *)
Theorem fenced_response_cleaned_like_bare (payload : jsstring) :
  strip_fences (wrap_fence payload) = strip_fences payload
  /\ JSON_parse (strip_fences (wrap_fence payload))
     = JSON_parse (strip_fences payload)
  /\ (strip_fences (wrap_fence payload) = trim payload
      <-> includes payload backticks = false)
  /\ (includes payload backticks = false -> trim payload = payload ->
      strip_fences (wrap_fence payload) = payload)
  /\ (includes payload backticks = false ->
      strip_fences (strip_fences (wrap_fence payload))
      = strip_fences (wrap_fence payload))
  /\ (forall text,
        strip_fences (strip_fences text) = strip_fences text
        <-> includes (strip_fences text) backticks = false).
Proof.
  assert (Idem : forall text,
             strip_fences (strip_fences text) = strip_fences text
             <-> includes (strip_fences text) backticks = false).
  { intros text.
    assert (T : trim (strip_fences text) = strip_fences text)
      by (unfold strip_fences; apply trim_idem).
    rewrite <- strip_fences_is_trim_iff, T. tauto. }
  rewrite strip_fences_wrap. split; [reflexivity|]. split; [reflexivity|].
  split; [apply strip_fences_is_trim_iff|]. split; [|split; [|exact Idem]].
  - intros H Ht. now rewrite (proj2 (strip_fences_is_trim_iff payload) H).
  - intros H. apply Idem.
    rewrite (proj2 (strip_fences_is_trim_iff payload) H).
    now apply includes_trim.
Qed.

Lemma fenced_response_witness :
  strip_fences (wrap_fence clothing_json) = clothing_json
  /\ JSON_parse (strip_fences (wrap_fence clothing_json)) = Some clothing.
Proof.
  destruct (fenced_response_cleaned_like_bare clothing_json)
    as (_ & _ & _ & H & _).
  split; [exact (H eq_refl eq_refl)|].
  rewrite (H eq_refl eq_refl). reflexivity.
Defined.

(** ** The component as a system *)

Section System.

Variable key : option jsstring.

Lemma consistent_boot : consistent (boot key).
Proof. split; [constructor | reflexivity]. Qed.

Lemma consistent_step sys e : consistent sys -> consistent (step key sys e).
Proof.
  intros [Ht Hn]. destruct e as [value | | outcome]; simpl.
  - split; assumption.
  - unfold handleSubmit. rewrite is_empty_trim.
    destruct (blank (input (ui sys))); [split; assumption|].
    destruct (isLoading (ui sys)) eqn:Hl; [split; simpl; now rewrite ?Hl|].
    simpl. destruct (no_api_key key) eqn:Hk.
    + unfold generatePackingList. rewrite Hk. split; simpl; now rewrite ?Hl.
    + destruct (generatePackingList_await key (ui sys) Hk) as (resume & -> & Hr).
      destruct (inflight sys); [|discriminate]. split; simpl; auto.
  - destruct (inflight sys) as [|resume rest] eqn:Hi; [split; now rewrite ?Hi|].
    inversion Ht as [|? ? Hr Hrest]; subst.
    destruct (Hr outcome (ui sys)) as (Hl' & _ & _).
    split; simpl; [assumption|]. rewrite Hl'.
    simpl in Hn. destruct (isLoading (ui sys)); simpl in Hn; [|discriminate].
    now destruct rest.
Qed.

Lemma consistent_run es : forall sys, consistent sys -> consistent (run key sys es).
Proof.
  induction es as [|e es IH]; intros sys H; [exact H|].
  apply IH, consistent_step, H.
Qed.

(** With the gate up, the input empty and nothing in flight, the controls
    offer no event that changes anything. *)
Lemma gated_system_is_stuck s cs es :
  apiKeyError s = true ->
  admissible key (mkSys s [] cs) es = true ->
  run key (mkSys s [] cs) es = mkSys s [] cs.
Proof.
  intros Hg. induction es as [|e es IH]; [reflexivity|].
  simpl. intros H. apply andb_true_iff in H as [Ho Hrest].
  destruct e as [value | | outcome]; simpl in Ho.
  - unfold input_disabled in Ho. rewrite Hg, orb_true_r in Ho. discriminate.
  - unfold button_disabled in Ho. rewrite Hg, orb_true_r in Ho. discriminate.
  - simpl in *. auto.
Qed.

End System.

(** C4. A submission is a silent no-op when the input is blank or a
    request is pending: the handler returns the state it was given without
    issuing a call. Hence, from the mounted component and through any
    sequence of events, at most one generation call is in flight. *)
Theorem blank_or_pending_submit_is_noop key :
  (forall s, blank (input s) = true \/ isLoading s = true ->
             handleSubmit key s = Done s
             /\ outbound (handleSubmit key s) = []
             /\ forall pending cs,
                 step key (mkSys s pending cs) Submit = mkSys s pending cs)
  /\ (forall es, List.length (inflight (run key (boot key) es)) <= 1).
Proof.
  split.
  - intros s H. rewrite (handleSubmit_rejects key s H).
    repeat split. intros pending cs. simpl.
    now rewrite (handleSubmit_rejects key s H).
  - intros es.
    destruct (consistent_run key es (boot key) (consistent_boot key)) as [_ Hn].
    rewrite Hn. destruct (isLoading _); lia.
Qed.

Lemma blank_or_pending_witness :
  let spaces := setInput ([32; 9; 160; 10])%N (initial key0) in
  let busy := setIsLoading true (setInput trip (initial key0)) in
  handleSubmit key0 spaces = Done spaces
  /\ handleSubmit key0 busy = Done busy.
Proof.
  cbv zeta. split.
  - exact (proj1 (proj1 (blank_or_pending_submit_is_noop key0)
                    (setInput ([32; 9; 160; 10])%N (initial key0))
                    (or_introl eq_refl))).
  - exact (proj1 (proj1 (blank_or_pending_submit_is_noop key0)
                    (setIsLoading true (setInput trip (initial key0)))
                    (or_intror eq_refl))).
Defined.

(** C9. The transcript only grows at its end: from the mounted component
    and through any sequence of events, every further event leaves the
    messages as they were or appends one pair, the user's message first
    and the assistant's second. *)
Theorem transcript_is_append_only key es e :
  let sys := run key (boot key) es in
  exists suffix,
    messages (ui (step key sys e)) = messages (ui sys) ++ suffix
    /\ (suffix = []
        \/ exists text reply,
            suffix = [mkMessage user text; mkMessage assistant reply]).
Proof.
  cbv zeta.
  destruct (consistent_run key es (boot key) (consistent_boot key)) as [Ht _].
  set (sys := run key (boot key) es) in *.
  destruct e as [value | | outcome]; simpl.
  - exists []. now rewrite app_nil_r; auto.
  - unfold handleSubmit.
    destruct (is_empty (trim (input (ui sys))) || isLoading (ui sys)).
    + exists []. now rewrite app_nil_r; auto.
    + destruct (no_api_key key) eqn:Hk.
      * unfold generatePackingList. rewrite Hk. simpl.
        eexists; split; [reflexivity|]. right. unfold exchange. eauto.
      * destruct (generatePackingList_await key (ui sys) Hk) as (resume & -> & _).
        exists []. now rewrite app_nil_r; auto.
  - destruct (inflight sys) as [|resume rest].
    + exists []. now rewrite app_nil_r; auto.
    + inversion Ht as [|? ? Hr _]; subst. simpl.
      destruct (Hr outcome (ui sys)) as (_ & _ & text & reply & ->).
      eexists; split; [reflexivity|]. right. unfold exchange. eauto.
Qed.

(** C3 (as stated, refuted). After an authentication failure the gate is
    up, yet a further submission does not take the configuration-error
    path. As the form stands (input cleared) it is a no-op that appends
    nothing; and were the input filled again, the handler, which never
    reads the gate, would lower it and issue a new outbound call. *)
Lemma gate_is_not_checked_by_handler :
  let s1 := settled (handleSubmit key0 (setInput trip (initial key0)))
                    (Rejected invalid_key_error) in
  let again := setInput (lit "Again") s1 in
  apiKeyError s1 = true
  /\ messages s1 = exchange trip msg_invalid_key
  /\ handleSubmit key0 s1 = Done s1
  /\ outbound (handleSubmit key0 again) = [prompt (lit "Again")]
  /\ outbound (handleSubmit key0 again) <> []
  /\ (forall o, apiKeyError (settled (handleSubmit key0 again) (Resolved o))
                = false).
Proof.
  cbv zeta. repeat split; try discriminate.
  intros o. cbn -[JSON_parse strip_fences].
  now destruct (JSON_parse (strip_fences o)).
Qed.

(** The state any settled call leaves behind, and the state a submission
    without a credential leaves behind. *)
Lemma settled_with_credential key s o :
  no_api_key key = false ->
  blank (input s) = false ->
  isLoading s = false ->
  outbound (handleSubmit key s) = [prompt (input s)]
  /\ settled (handleSubmit key s) o
     = mkAppState (messages s ++ exchange (input s) (reply_of o)) [] false
                  (list_after (packingList s) o) (gate_after false o).
Proof.
  intros Hk Hb Hl.
  rewrite (handleSubmit_proceeds key s Hb Hl).
  unfold generatePackingList. rewrite Hk. split; [reflexivity|].
  cbn [settled]. unfold reply_of, list_after.
  destruct o as [text | error];
    [destruct (JSON_parse (strip_fences text))|]; reflexivity.
Qed.

Lemma settled_without_credential key s o :
  no_api_key key = true ->
  blank (input s) = false ->
  isLoading s = false ->
  settled (handleSubmit key s) o
  = mkAppState (messages s ++ exchange (input s) msg_not_configured)
               [] false (packingList s) true.
Proof.
  intros Hk Hb Hl.
  rewrite (handleSubmit_proceeds key s Hb Hl).
  unfold generatePackingList. rewrite Hk.
  unfold setInput, setMessages, setApiKeyError. simpl. now rewrite Hl.
Qed.

(** No settled call is answered with the missing-credential text. *)
Lemma reply_of_not_configured o : reply_of o <> msg_not_configured.
Proof.
  destruct o as [text | [m | ]]; unfold reply_of, errorMessage.
  - destruct (JSON_parse (strip_fences text)); intros H; vm_compute in H;
      discriminate.
  - destruct (includes m (lit "API_KEY_INVALID"));
      [|destruct (includes m (lit "RATE_LIMIT_EXCEEDED"))];
      intros H; vm_compute in H; discriminate.
  - intros H; vm_compute in H; discriminate.
Qed.

(** C3 (amended). After a generation call fails, with an authentication
    error or any other, the user's text and the classified error reply
    (not the configuration-error text) have been appended, the gate is up
    and the input is empty; both form controls are then disabled, a submit
    event is a no-op that appends nothing and issues no call, and no event
    the controls offer changes the state again, so the gate stays up. The
    handler itself never reads the gate: a submission that is not a no-op
    issues the same call and ends in the same state whatever the gate
    was; and it appends the configuration-error text exactly when no
    credential is configured. *)
Theorem failed_call_locks_the_form key s error :
  no_api_key key = false ->
  blank (input s) = false ->
  isLoading s = false ->
  let s1 := settled (handleSubmit key s) (Rejected error) in
  apiKeyError s1 = true
  /\ input s1 = []
  /\ input_disabled s1 = true
  /\ button_disabled s1 = true
  /\ handleSubmit key s1 = Done s1
  /\ (forall cs es,
        admissible key (mkSys s1 [] cs) es = true ->
        run key (mkSys s1 [] cs) es = mkSys s1 [] cs)
  /\ messages s1 = messages s ++ exchange (input s) (errorMessage error)
  /\ errorMessage error <> msg_not_configured
  /\ outbound (handleSubmit key s1) = []
  /\ (forall k s2 gate o,
        blank (input s2) = false -> isLoading s2 = false ->
        outbound (handleSubmit k (setApiKeyError gate s2))
        = outbound (handleSubmit k s2)
        /\ settled (handleSubmit k (setApiKeyError gate s2)) o
           = settled (handleSubmit k s2) o)
  /\ (forall k s2 o,
        blank (input s2) = false -> isLoading s2 = false ->
        (messages (settled (handleSubmit k s2) o)
         = messages s2 ++ exchange (input s2) msg_not_configured
         <-> no_api_key k = true)).
Proof.
  intros Hk Hb Hl. cbv zeta.
  rewrite (settled_rejected key s error Hk Hb Hl).
  split; [reflexivity|]. split; [reflexivity|]. split; [reflexivity|].
  split; [reflexivity|]. split; [reflexivity|].
  split; [intros cs es; now apply gated_system_is_stuck|].
  split; [reflexivity|].
  split; [exact (reply_of_not_configured (Rejected error))|].
  split; [reflexivity|]. split.
  - intros k s2 gate o Hb2 Hl2. destruct (no_api_key k) eqn:Hk2.
    + rewrite (settled_without_credential k s2 o Hk2 Hb2 Hl2).
      rewrite (settled_without_credential k (setApiKeyError gate s2) o Hk2)
        by assumption.
      split; [|reflexivity].
      rewrite (handleSubmit_proceeds k s2 Hb2 Hl2).
      rewrite (handleSubmit_proceeds k (setApiKeyError gate s2)) by assumption.
      unfold generatePackingList. now rewrite Hk2.
    + destruct (settled_with_credential k (setApiKeyError gate s2) o
                  Hk2 Hb2 Hl2) as [-> ->].
      destruct (settled_with_credential k s2 o Hk2 Hb2 Hl2) as [-> ->].
      split; reflexivity.
  - intros k s2 o Hb2 Hl2. destruct (no_api_key k) eqn:Hk2.
    + rewrite (settled_without_credential k s2 o Hk2 Hb2 Hl2). tauto.
    + destruct (settled_with_credential k s2 o Hk2 Hb2 Hl2) as [_ ->].
      cbn [messages]. split; [|discriminate].
      intros H. apply app_inv_head in H. injection H as H.
      now apply reply_of_not_configured in H.
Qed.

Lemma failed_call_locks_witness :
  let s1 := settled (handleSubmit key0 seeded) (Rejected invalid_key_error) in
  apiKeyError s1 = true
  /\ button_disabled s1 = true
  /\ run key0 (mkSys s1 [] []) [Settle (Resolved clothing_json)] = mkSys s1 [] []
  /\ messages s1 = messages seeded ++ exchange trip msg_invalid_key.
Proof.
  cbv zeta.
  destruct (failed_call_locks_the_form key0 seeded invalid_key_error
              eq_refl eq_refl eq_refl)
    as (H1 & _ & _ & H2 & _ & H3 & H4 & _).
  split; [exact H1|]. split; [exact H2|].
  split; [exact (H3 [] [Settle (Resolved clothing_json)] eq_refl) | exact H4].
Defined.

(** ** The earlier revision, where it differs *)

(** A fenced response is not JSON as it stands. *)
Lemma fenced_text_is_not_json payload : JSON_parse (wrap_fence payload) = None.
Proof.
  unfold JSON_parse, fuel_for.
  replace (2 * List.length (wrap_fence payload) + 1)
    with (S (2 * List.length (wrap_fence payload))) by lia.
  reflexivity.
Qed.

(** Without the cleaning step and the inner [try], a response that does
    not parse, a fenced one included, takes the call-failure path: a reply
    chosen by the two-way [Legacy.errorMessage], and the gate set. *)
Lemma legacy_parse_failure_sets_gate key wording s text :
  no_api_key key = false ->
  blank (input s) = false ->
  isLoading s = false ->
  JSON_parse text = None ->
  settled (Legacy.handleSubmit key wording s) (Resolved text)
  = mkAppState
      (messages s
       ++ exchange (input s) (Legacy.errorMessage (ErrorObject (wording text))))
      [] false (packingList s) true.
Proof.
  intros Hk Hb Hl Hp. unfold Legacy.handleSubmit.
  rewrite is_empty_trim, Hb, Hl. simpl.
  unfold Legacy.generatePackingList. rewrite Hk. simpl. now rewrite Hp.
Qed.

(** The earlier revision has no rate-limit reply. *)
Lemma legacy_rate_limit_is_generic m :
  includes m (lit "API_KEY_INVALID") = false ->
  Legacy.errorMessage (ErrorObject m) = msg_retry.
Proof. intros H. simpl. now rewrite H. Qed.

(** * Further properties of the component *)

(** ** What a continuation does, in full *)

Lemma generatePackingList_answers key s :
  no_api_key key = false ->
  exists resume,
    generatePackingList key s
    = Await (setApiKeyError false (setIsLoading true s)) (prompt (input s)) resume
    /\ answers (input s) resume.
Proof.
  intros Hk. unfold generatePackingList. rewrite Hk.
  eexists; split; [reflexivity|].
  intros [text | error] st; unfold reply_of, list_after; simpl;
    [destruct (JSON_parse (strip_fences text))|]; reflexivity.
Qed.

Lemma guard_passed s :
  is_empty (trim (input s)) || isLoading s = false ->
  blank (input s) = false /\ isLoading s = false.
Proof. rewrite is_empty_trim. apply orb_false_elim. Qed.

Lemma reply_of_fixed o : In (reply_of o) fixed_replies.
Proof.
  destruct o as [text | [m | ]]; unfold reply_of, fixed_replies; simpl.
  - destruct (JSON_parse (strip_fences text)); auto.
  - destruct (includes m (lit "API_KEY_INVALID")); [auto 10|].
    destruct (includes m (lit "RATE_LIMIT_EXCEEDED")); auto 10.
  - auto 10.
Qed.

Section Reachable.

Variable key : option jsstring.

Lemma run_invariant (P : Sys -> Prop) :
  (forall sys e, P sys -> P (step key sys e)) ->
  forall es sys, P sys -> P (run key sys es).
Proof.
  intros Hstep es. induction es as [|e es IH]; intros sys H; [exact H|].
  apply IH, Hstep, H.
Qed.

Lemma run_app sys es1 es2 :
  run key sys (es1 ++ es2) = run key (run key sys es1) es2.
Proof. apply fold_left_app. Qed.

Lemma sound_step sys e : sound sys -> sound (step key sys e).
Proof.
  unfold sound. intros H. destruct e as [value | | outcome]; simpl.
  - exact H.
  - unfold handleSubmit.
    destruct (is_empty (trim (input (ui sys))) || isLoading (ui sys)) eqn:G;
      [exact H|].
    destruct (guard_passed _ G) as [Hb _].
    destruct (no_api_key key) eqn:Hk.
    + unfold generatePackingList. rewrite Hk. exact H.
    + destruct (generatePackingList_answers key (ui sys) Hk) as (resume & -> & Ha).
      simpl. apply Forall_app. split; [exact H|]. constructor; [eauto | constructor].
  - destruct (inflight sys) as [|resume rest] eqn:E; [now rewrite E|].
    now inversion H.
Qed.

(** What one event does to the transcript: nothing, or one exchange of a
    non-blank text and a fixed reply. *)
Lemma step_transcript sys e :
  sound sys ->
  exists pairs,
    messages (ui (step key sys e)) = messages (ui sys) ++ exchanges pairs
    /\ Forall proper_pair pairs.
Proof.
  intros H. destruct e as [value | | outcome]; simpl.
  - exists []. simpl. now rewrite app_nil_r.
  - unfold handleSubmit.
    destruct (is_empty (trim (input (ui sys))) || isLoading (ui sys)) eqn:G;
      [exists []; simpl; now rewrite app_nil_r|].
    destruct (guard_passed _ G) as [Hb _].
    destruct (no_api_key key) eqn:Hk.
    + unfold generatePackingList. rewrite Hk. simpl.
      exists [(input (ui sys), msg_not_configured)]. split; [reflexivity|].
      constructor; [|constructor]. split; [exact Hb | simpl; auto].
    + destruct (generatePackingList_answers key (ui sys) Hk) as (resume & -> & _).
      exists []. simpl. now rewrite app_nil_r.
  - destruct (inflight sys) as [|resume rest] eqn:E;
      [exists []; simpl; now rewrite app_nil_r|].
    unfold sound in H. rewrite E in H.
    inversion H as [|? ? (text & Hb & Ha) _]; subst. simpl. rewrite Ha. simpl.
    exists [(text, reply_of outcome)]. split; [reflexivity|].
    constructor; [|constructor]. split; [exact Hb | apply reply_of_fixed].
Qed.

End Reachable.

(** ** Without a credential *)

(** X1. With no credential (absent, or the empty string) the form is locked
    from the moment the component mounts: both controls are disabled and no
    sequence of events the controls offer changes anything, so through the
    form the missing-credential reply is never even appended. *)
Theorem no_credential_locks_form_from_mount key :
  no_api_key key = true ->
  input_disabled (initial key) = true
  /\ button_disabled (initial key) = true
  /\ forall es, admissible key (boot key) es = true ->
                run key (boot key) es = boot key.
Proof.
  intros Hk. unfold input_disabled, button_disabled, initial. simpl.
  rewrite Hk. repeat split.
  intros es. apply gated_system_is_stuck. exact Hk.
Qed.

Lemma no_credential_locks_witness :
  input_disabled (initial (Some [])) = true
  /\ run (Some []) (boot (Some []))
         [Settle (Resolved clothing_json); Settle (Rejected OtherValue)]
     = boot (Some []).
Proof.
  destruct (no_credential_locks_form_from_mount (Some []) eq_refl)
    as (H1 & _ & H2).
  split; [exact H1|].
  exact (H2 [Settle (Resolved clothing_json); Settle (Rejected OtherValue)]
            eq_refl).
Defined.

(** X2. With no credential the handlers never issue an outbound call,
    whatever events reach them: nothing is ever in flight, the pending flag
    stays down, the gate stays up, and every assistant message is the
    missing-credential text. *)
Theorem no_credential_never_calls key es :
  no_api_key key = true ->
  let sys := run key (boot key) es in
  calls sys = []
  /\ inflight sys = []
  /\ isLoading (ui sys) = false
  /\ apiKeyError (ui sys) = true
  /\ Forall (fun m => role m = assistant -> content m = msg_not_configured)
            (messages (ui sys)).
Proof.
  intros Hk. cbv zeta.
  apply (run_invariant key
           (fun sys => calls sys = [] /\ inflight sys = []
                       /\ isLoading (ui sys) = false
                       /\ apiKeyError (ui sys) = true
                       /\ Forall (fun m => role m = assistant ->
                                           content m = msg_not_configured)
                                 (messages (ui sys)))).
  - intros sys e (Hc & Hi & Hl & Hg & Hm).
    destruct e as [value | | outcome]; simpl.
    + auto.
    + unfold handleSubmit.
      destruct (is_empty (trim (input (ui sys))) || isLoading (ui sys));
        [auto|].
      unfold generatePackingList. rewrite Hk. simpl.
      repeat split; auto.
      apply Forall_app. split; [exact Hm|].
      repeat constructor; simpl; congruence.
    + rewrite Hi. auto.
  - simpl. rewrite Hk. repeat split. constructor.
Qed.

Lemma no_credential_never_calls_witness :
  let sys := run None (boot None)
                 [Change trip; Submit; Change (lit "Again"); Submit] in
  calls sys = []
  /\ messages (ui sys)
     = exchange trip msg_not_configured
       ++ exchange (lit "Again") msg_not_configured.
Proof.
  cbv zeta.
  destruct (no_credential_never_calls None
              [Change trip; Submit; Change (lit "Again"); Submit] eq_refl)
    as (H & _).
  split; [exact H | reflexivity].
Defined.

(** ** The transcript and the pending flag, over all runs *)

Lemma exchanges_app ps qs : exchanges (ps ++ qs) = exchanges ps ++ exchanges qs.
Proof. apply flat_map_app. Qed.

(** X3. Whatever events occur after mounting, the transcript is a sequence
    of whole exchanges: a user message whose text is not blank, followed by
    an assistant message that is one of the seven fixed texts. No response
    text and no error detail ever reaches the transcript. *)
Theorem transcript_is_whole_exchanges key es :
  exists pairs,
    messages (ui (run key (boot key) es)) = exchanges pairs
    /\ Forall proper_pair pairs.
Proof.
  apply (run_invariant key
           (fun sys => sound sys
                       /\ exists pairs, messages (ui sys) = exchanges pairs
                                        /\ Forall proper_pair pairs)).
  - intros sys e (Hs & pairs & Hm & Hp). split; [now apply sound_step|].
    destruct (step_transcript key sys e Hs) as (more & -> & Hq).
    exists (pairs ++ more). rewrite exchanges_app, Hm. split; [reflexivity|].
    apply Forall_app. now split.
  - split; [constructor|]. exists []. split; [reflexivity | constructor].
Qed.

(** X4. The pending flag is up exactly while a call is in flight: over
    every run there is one continuation waiting when [isLoading] holds and
    none when it does not. *)
Theorem pending_flag_tracks_the_call key es :
  let sys := run key (boot key) es in
  List.length (inflight sys) = if isLoading (ui sys) then 1 else 0.
Proof.
  cbv zeta.
  now destruct (consistent_run key es (boot key) (consistent_boot key)).
Qed.

(** ** Rounds of use *)

(** One round from an idle system. *)
Lemma round_from_idle key s cs r :
  no_api_key key = false ->
  isLoading s = false ->
  blank (fst r) = false ->
  run key (mkSys s [] cs) (round r)
  = mkSys (mkAppState (messages s ++ exchange (fst r) (reply_of (snd r)))
                      [] false (list_after (packingList s) (snd r))
                      (gate_after false (snd r)))
          [] (cs ++ [prompt (fst r)]).
Proof.
  intros Hk Hl Hb. destruct r as [text o]. simpl in Hb |- *.
  rewrite (handleSubmit_proceeds key (setInput text s)) by assumption.
  destruct (generatePackingList_answers key (setInput text s) Hk)
    as (resume & -> & Ha).
  simpl. now rewrite Ha.
Qed.

Lemma last_default {A} (l : list A) d d' : l <> [] -> last l d = last l d'.
Proof.
  induction l as [|a [|b l] IH]; intros H; [congruence | reflexivity |].
  change (last (b :: l) d = last (b :: l) d'). apply IH. discriminate.
Qed.

Lemma rounds_from_idle key rs : forall s cs,
  no_api_key key = false ->
  isLoading s = false ->
  Forall (fun r => blank (fst r) = false) rs ->
  let sys := run key (mkSys s [] cs) (flat_map round rs) in
  messages (ui sys)
  = messages s ++ exchanges (map (fun r => (fst r, reply_of (snd r))) rs)
  /\ calls sys = cs ++ map (fun r => prompt (fst r)) rs
  /\ inflight sys = []
  /\ isLoading (ui sys) = false
  /\ packingList (ui sys) = fold_left list_after (map snd rs) (packingList s)
  /\ apiKeyError (ui sys)
     = last (map (fun r => negb (is_resolved (snd r))) rs) (apiKeyError s).
Proof.
  induction rs as [|r rs IH]; intros s cs Hk Hl Hb; cbv zeta.
  - simpl. now rewrite !app_nil_r.
  - inversion Hb as [|? ? Hr Hrs]; subst.
    change (flat_map round (r :: rs)) with (round r ++ flat_map round rs).
    rewrite run_app, (round_from_idle key s cs r Hk Hl Hr).
    match goal with
    | |- context [run key (mkSys ?s1 [] ?c1) _] =>
        specialize (IH s1 c1 Hk eq_refl Hrs)
    end.
    cbv zeta in IH.
    destruct IH as (Hm & Hc & Hi & Hl' & Hp & Hg).
    split; [rewrite Hm; simpl; now rewrite <- app_assoc|].
    split; [rewrite Hc; simpl; now rewrite <- app_assoc|].
    split; [exact Hi|]. split; [exact Hl'|]. split; [now rewrite Hp|].
    rewrite Hg. simpl apiKeyError.
    destruct rs as [|r' rs]; [simpl; now destruct (snd r)|].
    change (map (fun r0 => negb (is_resolved (snd r0))) (r :: r' :: rs))
      with (negb (is_resolved (snd r))
            :: map (fun r0 => negb (is_resolved (snd r0))) (r' :: rs)).
    change (last (?a :: ?l) ?d) with (last l d).
    apply last_default. discriminate.
Qed.

(** X5. Rounds compose. With a credential, after any number of rounds
    (type a non-blank text, submit, the call settles) run on the handlers
    from the mounted component: the transcript is the rounds' exchanges in
    order, each text answered by the reply of its own outcome; exactly one
    outbound call was issued per round, with that round's prompt; nothing
    is left in flight; the packing list is the last value that parsed; and
    the gate tells whether the last call failed. *)
Theorem rounds_compose key rs :
  no_api_key key = false ->
  Forall (fun r => blank (fst r) = false) rs ->
  let sys := run key (boot key) (flat_map round rs) in
  messages (ui sys) = exchanges (map (fun r => (fst r, reply_of (snd r))) rs)
  /\ calls sys = map (fun r => prompt (fst r)) rs
  /\ inflight sys = []
  /\ isLoading (ui sys) = false
  /\ packingList (ui sys) = fold_left list_after (map snd rs) JNull
  /\ apiKeyError (ui sys)
     = last (map (fun r => negb (is_resolved (snd r))) rs) false.
Proof.
  intros Hk Hb.
  destruct (rounds_from_idle key rs (initial key) [] Hk eq_refl Hb)
    as (Hm & Hc & Hi & Hl & Hp & Hg).
  change (apiKeyError (initial key)) with (no_api_key key) in Hg.
  rewrite Hk in Hg. cbv zeta. unfold boot.
  split; [exact Hm|]. split; [exact Hc|]. split; [exact Hi|].
  split; [exact Hl|]. split; [exact Hp | exact Hg].
Qed.

Lemma rounds_compose_witness :
  let sys := run key0 (boot key0)
                 (flat_map round
                    [(trip, Resolved (wrap_fence clothing_json));
                     (lit "Again", Resolved (lit "no list today"));
                     (lit "Once more", Rejected invalid_key_error)]) in
  messages (ui sys)
  = exchange trip msg_generated
    ++ exchange (lit "Again") msg_invalid_format
    ++ exchange (lit "Once more") msg_invalid_key
  /\ calls sys = [prompt trip; prompt (lit "Again"); prompt (lit "Once more")]
  /\ packingList (ui sys) = clothing
  /\ apiKeyError (ui sys) = true.
Proof.
  cbv zeta.
  pose proof (rounds_compose key0
                [(trip, Resolved (wrap_fence clothing_json));
                 (lit "Again", Resolved (lit "no list today"));
                 (lit "Once more", Rejected invalid_key_error)]
                eq_refl) as H.
  destruct H as (H1 & H2 & _ & _ & H3 & H4);
    [repeat constructor|].
  split; [exact H1|]. split; [exact H2|]. split; [exact H3 | exact H4].
Defined.


(** The tree builds exactly when the stored value can be shown, and then
    its controls carry the [disabled] attributes of the state. *)
Lemma render_displayable nonzero s :
  displayable nonzero (packingList s) = true ->
  exists tree,
    View.render nonzero s = Some tree
    /\ View.field_disabled tree = input_disabled s
    /\ View.send_disabled tree = button_disabled s.
Proof.
  unfold displayable, View.render. intros H.
  destruct (View.ToBoolean nonzero (packingList s)).
  - destruct (PackingListDisplay (packingList s)); [|discriminate].
    eexists; repeat split.
  - eexists; repeat split.
Qed.





(** ** More on the cleaning step *)

Lemma trimEnd_cons_nonws c t :
  isWhiteSpace c = false -> trimEnd (c :: t) = c :: trimEnd t.
Proof.
  intros Hc. unfold trimEnd. simpl rev. rewrite trimStart_snoc by exact Hc.
  now rewrite rev_app_distr.
Qed.

Lemma trim_cons_nonws c t :
  isWhiteSpace c = false -> trim (c :: t) = c :: trimEnd t.
Proof.
  intros Hc. unfold trim. simpl trimStart. rewrite Hc.
  now apply trimEnd_cons_nonws.
Qed.

Lemma JSON_parse_json_word rest : JSON_parse (lit "json" ++ rest) = None.
Proof.
  unfold JSON_parse, fuel_for.
  replace (2 * List.length (lit "json" ++ rest) + 1)
    with (S (2 * List.length (lit "json" ++ rest))) by lia.
  reflexivity.
Qed.

(** The cleaned text of a fenced response that begins with a line feed. *)
Lemma strip_fences_after_line_feed payload :
  strip_fences (newline ++ wrap_fence payload)
  = lit "json" ++ trimEnd (replace_fences 0 (newline ++ payload ++ closing)).
Proof.
  unfold strip_fences.
  change (replace_fences 0 (newline ++ wrap_fence payload))
    with (106%N :: 115%N :: 111%N :: 110%N
          :: replace_fences 0 (newline ++ payload ++ closing)).
  rewrite trim_cons_nonws by reflexivity.
  now rewrite !trimEnd_cons_nonws by reflexivity.
Qed.

(** X7. A fenced response that begins with a line feed defeats the
    cleaning: the regular expression takes the line feed and the three
    backticks as a closing fence, the word [json] stays at the head of the
    text, the text does not parse, and the submission ends with the
    "invalid response format" reply and the packing list unchanged,
    whatever the payload. *)
Theorem leading_line_feed_defeats_cleaning key s payload :
  no_api_key key = false ->
  blank (input s) = false ->
  isLoading s = false ->
  let text := newline ++ wrap_fence payload in
  startsWith (lit "json") (strip_fences text) = true
  /\ JSON_parse (strip_fences text) = None
  /\ settled (handleSubmit key s) (Resolved text)
     = mkAppState (messages s ++ exchange (input s) msg_invalid_format)
                  [] false (packingList s) false.
Proof.
  intros Hk Hb Hl. cbv zeta.
  rewrite (handleSubmit_proceeds key s Hb Hl).
  unfold generatePackingList. rewrite Hk. cbn [settled].
  rewrite strip_fences_after_line_feed, JSON_parse_json_word.
  repeat split.
Qed.

Lemma leading_line_feed_witness :
  let text := newline ++ wrap_fence clothing_json in
  JSON_parse (strip_fences (wrap_fence clothing_json)) = Some clothing
  /\ JSON_parse (strip_fences text) = None
  /\ messages (settled (handleSubmit key0 seeded) (Resolved text))
     = messages seeded ++ exchange trip msg_invalid_format.
Proof.
  cbv zeta.
  destruct (leading_line_feed_defeats_cleaning key0 seeded clothing_json
              eq_refl eq_refl eq_refl) as (_ & H1 & H2).
  split; [reflexivity|]. split; [exact H1|]. now rewrite H2.
Defined.

(** X8. A fence without a language tag is stripped as well: for a payload
    without backticks, the response wrapped in plain triple backticks is
    cleaned to the trimmed payload, the same text the [json] fence gives. *)
Theorem plain_fence_is_stripped payload :
  no_backtickb payload = true ->
  strip_fences (wrap_plain payload) = trim payload
  /\ strip_fences (wrap_plain payload) = strip_fences (wrap_fence payload).
Proof.
  intros Hb. apply no_backtickb_sound in Hb.
  assert (E : strip_fences (wrap_plain payload) = trim payload).
  { unfold strip_fences.
    change (replace_fences 0 (wrap_plain payload))
      with (replace_fences 0 (10%N :: (payload ++ closing))).
    cbn [replace_fences].
    assert (F : fence_match (10%N :: (payload ++ closing)) = 0).
    { unfold fence_match. destruct Hb as [|c t Hc Ht]; [reflexivity|].
      cbn. apply N.eqb_neq in Hc. rewrite N.eqb_sym in Hc. now rewrite Hc. }
    rewrite F, replace_fences_closing by lia.
    now rewrite replace_fences_no_backtick. }
  split; [exact E|].
  now rewrite E, strip_fences_wrap, strip_fences_no_backtick.
Qed.

Lemma plain_fence_witness :
  strip_fences (wrap_plain clothing_json) = clothing_json.
Proof.
  exact (proj1 (plain_fence_is_stripped clothing_json eq_refl)).
Defined.

Lemma replace_fences_length k s :
  List.length (replace_fences k s) <= List.length s.
Proof.
  revert k. induction s as [|c t IH]; intros k; [simpl; lia|].
  cbn [replace_fences]. destruct k as [|k].
  - destruct (fence_match (c :: t)) as [|m]; simpl;
      [specialize (IH 0) | specialize (IH m)]; lia.
  - specialize (IH k). simpl. lia.
Qed.

Lemma trimStart_length s : List.length (trimStart s) <= List.length s.
Proof.
  induction s as [|c t IH]; simpl; [lia|].
  destruct (isWhiteSpace c); simpl; lia.
Qed.

Lemma trim_length s : List.length (trim s) <= List.length s.
Proof.
  unfold trim, trimEnd. rewrite length_rev.
  etransitivity; [apply trimStart_length|]. rewrite length_rev.
  apply trimStart_length.
Qed.

Lemma subseq_refl s : subseq s s.
Proof. induction s; constructor; assumption. Qed.

Lemma subseq_trans a b c : subseq a b -> subseq b c -> subseq a c.
Proof.
  intros Hab Hbc. revert a Hab.
  induction Hbc as [|x b c Hbc IH | x b c Hbc IH]; intros a Hab.
  - exact Hab.
  - inversion Hab; subst; constructor; auto.
  - constructor. auto.
Qed.

Lemma subseq_snoc a b c : subseq a b -> subseq (a ++ [c]) (b ++ [c]).
Proof.
  induction 1; simpl; repeat constructor; assumption.
Qed.

Lemma subseq_snoc_drop a b c : subseq a b -> subseq a (b ++ [c]).
Proof.
  induction 1; simpl; repeat constructor; assumption.
Qed.

Lemma subseq_rev a b : subseq a b -> subseq (rev a) (rev b).
Proof.
  induction 1; simpl;
    [constructor | now apply subseq_snoc | now apply subseq_snoc_drop].
Qed.

Lemma subseq_replace_fences s : forall k, subseq (replace_fences k s) s.
Proof.
  induction s as [|c t IH]; intros k; [constructor|].
  cbn [replace_fences]. destruct k as [|k]; [|constructor; apply IH].
  destruct (fence_match (c :: t)); constructor; apply IH.
Qed.

Lemma subseq_trimStart s : subseq (trimStart s) s.
Proof.
  induction s as [|c t IH]; [constructor|]. simpl.
  destruct (isWhiteSpace c); [now constructor | apply subseq_refl].
Qed.

Lemma subseq_trim s : subseq (trim s) s.
Proof.
  unfold trim, trimEnd.
  apply subseq_trans with (b := trimStart s); [|apply subseq_trimStart].
  rewrite <- (rev_involutive (trimStart s)) at 2.
  apply subseq_rev, subseq_trimStart.
Qed.

(** The code units of a match are backticks, letters of [json] and line
    feeds. *)
Lemma fence_match_units s :
  forallb fence_unit (firstn (fence_match s) s) = true.
Proof.
  unfold fence_match.
  destruct s as [|a [|b [|c [|d [|e [|f [|g [|h r]]]]]]]]; cbn;
    split_eqb; reflexivity.
Qed.

Lemma kept_replace_fences s : forall k,
  forallb fence_unit (firstn k s) = true ->
  kept (replace_fences k s) = kept s.
Proof.
  unfold kept. induction s as [|c t IH]; intros k Hk; [reflexivity|].
  cbn [replace_fences]. destruct k as [|k].
  - pose proof (fence_match_units (c :: t)) as Hm.
    destruct (fence_match (c :: t)) as [|m].
    + cbn [filter]. now rewrite (IH 0).
    + cbn [firstn forallb] in Hm. apply andb_true_iff in Hm as [Hc Hm].
      cbn [filter]. rewrite Hc. cbn [negb]. now apply IH.
  - cbn [firstn forallb] in Hk. apply andb_true_iff in Hk as [Hc Hk].
    cbn [filter]. rewrite Hc. cbn [negb]. now apply IH.
Qed.

Lemma kept_trimStart s : kept (trimStart s) = kept s.
Proof.
  unfold kept. induction s as [|c t IH]; [reflexivity|]. simpl trimStart.
  destruct (isWhiteSpace c) eqn:Hc; [|reflexivity].
  cbn [filter]. unfold fence_unit at 2. rewrite Hc, orb_true_r. exact IH.
Qed.

Lemma kept_trim s : kept (trim s) = kept s.
Proof.
  unfold trim, trimEnd. unfold kept at 1. rewrite filter_rev.
  fold (kept (trimStart (rev (trimStart s)))). rewrite kept_trimStart.
  unfold kept at 1. rewrite filter_rev, rev_involutive. apply kept_trimStart.
Qed.

(** X9. The cleaning step only removes code units, and only those of fence
    markers and white space: the cleaned text is the response with some
    code units deleted; every code unit that is not a backtick, a letter
    of [json] or white space is kept, in order; the cleaned text is never
    longer than the response, carries no white space at either end, and
    is blank only if it is empty. *)
Theorem cleaning_only_removes text :
  subseq (strip_fences text) text
  /\ kept (strip_fences text) = kept text
  /\ List.length (strip_fences text) <= List.length text
  /\ trim (strip_fences text) = strip_fences text
  /\ blank (strip_fences text) = is_empty (strip_fences text).
Proof.
  split; [|split; [|split; [|split]]].
  - unfold strip_fences.
    apply subseq_trans with (b := replace_fences 0 text);
      [apply subseq_trim | apply subseq_replace_fences].
  - unfold strip_fences. rewrite kept_trim. now apply kept_replace_fences.
  - unfold strip_fences. etransitivity; [apply trim_length|].
    apply replace_fences_length.
  - unfold strip_fences. apply trim_idem.
  - rewrite <- is_empty_trim. unfold strip_fences. now rewrite trim_idem.
Qed.

(** ** Classification of failures *)

(** X10. The reply to a failed call depends only on whether the error's
    message contains the two markers, anywhere in it: the invalid-key
    reply exactly when it contains [API_KEY_INVALID] (also when it contains
    the other marker too), the rate-limit reply exactly when it contains
    [RATE_LIMIT_EXCEEDED] and not [API_KEY_INVALID]. *)
Theorem failure_reply_by_marker message :
  let has marker := exists pre post, message = pre ++ lit marker ++ post in
  (errorMessage (ErrorObject message) = msg_invalid_key
   <-> has "API_KEY_INVALID"%string)
  /\ (errorMessage (ErrorObject message) = msg_rate_limit
      <-> has "RATE_LIMIT_EXCEEDED"%string /\ ~ has "API_KEY_INVALID"%string).
Proof.
  cbv zeta. rewrite <- !includes_iff. unfold errorMessage.
  destruct (includes message (lit "API_KEY_INVALID"));
    destruct (includes message (lit "RATE_LIMIT_EXCEEDED"));
    repeat split; try reflexivity; try discriminate;
    try (intros [? ?]; congruence); try congruence;
    intros H; vm_compute in H; discriminate.
Qed.

(** ** [PackingListDisplay] and the tree of [App] *)

Lemma failure_reply_witness :
  errorMessage
    (ErrorObject (lit "RATE_LIMIT_EXCEEDED after API_KEY_INVALID was reported"))
  = msg_invalid_key.
Proof.
  apply (proj1 (failure_reply_by_marker
                  (lit "RATE_LIMIT_EXCEEDED after API_KEY_INVALID was reported"))).
  exists (lit "RATE_LIMIT_EXCEEDED after "), (lit " was reported"). reflexivity.
Defined.

(** ** [PackingListDisplay] and the tree of [App] *)

Lemma mapM_map {A B C} (f : B -> option C) (g : A -> B) (h : A -> C) xs :
  (forall x, f (g x) = Some (h x)) -> mapM f (map g xs) = Some (map h xs).
Proof.
  intros H. induction xs as [|x xs IH]; [reflexivity|].
  simpl. now rewrite H, IH.
Qed.

Lemma mapM_relate {A B C} (f : A -> option B) (g : A -> option C) (h : B -> C) :
  (forall x y, f x = Some y -> g x = Some (h y)) ->
  forall xs ys, mapM f xs = Some ys -> mapM g xs = Some (map h ys).
Proof.
  intros H. induction xs as [|x xs IH]; intros ys E; simpl in E.
  - now injection E as <-.
  - destruct (f x) as [y|] eqn:Fx; [|discriminate].
    destruct (mapM f xs) as [ys'|]; [|discriminate].
    injection E as <-. simpl. now rewrite (H x y Fx), (IH ys' eq_refl).
Qed.

Lemma read_string_some v s : read_string v = Some s -> v = Some (JString s).
Proof. destruct v as [[]|]; simpl; congruence. Qed.

Lemma read_strings_some v its :
  read_strings v = Some its -> as_array v = Some (map JString its).
Proof.
  destruct v as [[| | | |xs|]|]; cbn [read_strings as_array];
    try discriminate.
  revert its. induction xs as [|x xs IH]; intros its E; cbn [mapM] in E.
  - now injection E as <-.
  - destruct (read_string (Some x)) as [str|] eqn:Fx; [|discriminate].
    destruct (mapM (fun x0 => read_string (Some x0)) xs) as [rest|];
      [|discriminate].
    injection E as <-. apply read_string_some in Fx. injection Fx as ->.
    specialize (IH rest eq_refl). injection IH as ->. reflexivity.
Qed.

(** What [PackingListDisplay] builds on a value of the type. *)
Lemma display_read v pl :
  read_list v = Some pl ->
  PackingListDisplay v = Some (map group_of (Typed.categories pl)).
Proof.
  unfold read_list, PackingListDisplay.
  destruct v as [| | | | |ms]; try discriminate.
  change (dot (Some (JObject ms)) (lit "categories"))
    with (Some (get_member ms (lit "categories"))).
  destruct (get_member ms (lit "categories")) as [[| | | |cs|]|];
    try discriminate.
  cbn [as_array].
  destruct (mapM read_category cs) as [cats|] eqn:E; [|discriminate].
  intros H. injection H as <-. cbn [Typed.categories].
  revert cats E. apply mapM_relate. intros c cat Hc.
  unfold read_category in Hc. destruct c as [| | | | |cm]; try discriminate.
  change (dot (Some (JObject cm)) ?k) with (Some (get_member cm k)).
  destruct (read_string (get_member cm (lit "name"))) as [n|] eqn:Hn;
    [|discriminate].
  destruct (read_strings (get_member cm (lit "items"))) as [its|] eqn:Hi;
    [|discriminate].
  injection Hc as <-.
  rewrite (read_string_some _ _ Hn), (read_strings_some _ _ Hi). reflexivity.
Qed.

Lemma read_list_truthy nonzero v pl :
  read_list v = Some pl -> View.ToBoolean nonzero v = true.
Proof. destruct v; simpl; congruence. Qed.

Lemma read_list_displayable nonzero v pl :
  read_list v = Some pl -> displayable nonzero v = true.
Proof.
  intros H. unfold displayable.
  now rewrite (read_list_truthy nonzero v pl H), (display_read v pl H).
Qed.

Lemma read_strings_map its :
  read_strings (Some (JArray (map JString its))) = Some its.
Proof.
  unfold read_strings. induction its as [|i its IH]; [reflexivity|].
  cbn [map mapM]. rewrite IH. reflexivity.
Qed.

Lemma read_category_value c : read_category (Typed.category_value c) = Some c.
Proof.
  destruct c as [n its]. unfold read_category, Typed.category_value.
  cbn [Typed.name Typed.items].
  change (get_member [(lit "name", ?a); (lit "items", ?b)] (lit "name"))
    with (Some a).
  change (get_member [(lit "name", ?a); (lit "items", ?b)] (lit "items"))
    with (Some b).
  now rewrite read_strings_map.
Qed.

(** The value written with exactly the members of the type is of the
    type. *)
Lemma read_to_value pl : read_list (Typed.to_value pl) = Some pl.
Proof.
  destruct pl as [cats]. unfold read_list, Typed.to_value.
  change (get_member [(lit "categories", ?v)] (lit "categories")) with (Some v).
  cbn [Typed.categories].
  assert (E : mapM read_category (map Typed.category_value cats) = Some cats).
  { induction cats as [|c cats IH]; [reflexivity|].
    cbn [map mapM]. now rewrite read_category_value, IH. }
  now rewrite E.
Qed.

Lemma mapi_from_app {A B} (f : nat -> A -> B) xs : forall i ys,
  View.mapi_from i f (xs ++ ys)
  = View.mapi_from i f xs ++ View.mapi_from (i + List.length xs) f ys.
Proof.
  induction xs as [|x xs IH]; intros i ys; simpl.
  - now replace (i + 0) with i by lia.
  - rewrite IH. now replace (i + S (List.length xs))
                    with (S i + List.length xs) by lia.
Qed.

(** The state a resolved call leaves behind. *)
Lemma settled_resolved key s text :
  no_api_key key = false ->
  blank (input s) = false ->
  isLoading s = false ->
  settled (handleSubmit key s) (Resolved text)
  = mkAppState (messages s ++ exchange (input s) (reply_of (Resolved text)))
               [] false (list_after (packingList s) (Resolved text)) false.
Proof.
  intros Hk Hb Hl.
  rewrite (handleSubmit_proceeds key s Hb Hl).
  unfold generatePackingList. rewrite Hk. cbn [settled].
  unfold reply_of, list_after.
  now destruct (JSON_parse (strip_fences text)).
Qed.

(** X11. A response that parses to a value of the type [PackingList]
    (whatever the order of its members, whatever further members it has)
    is displayed in full: after the submission the tree of [App] builds,
    the panel shows one group per category in the order of the response,
    each with its name and all its items in order, the alert and the
    welcome panel are gone, and the form is ready for the next text. *)
Theorem typed_response_is_displayed nonzero key s text v pl :
  no_api_key key = false ->
  blank (input s) = false ->
  isLoading s = false ->
  JSON_parse (strip_fences text) = Some v ->
  read_list v = Some pl ->
  View.render nonzero (settled (handleSubmit key s) (Resolved text))
  = Some (View.mkTree false false
            (View.chat (messages s ++ exchange (input s) msg_generated))
            [] false true false
            (inr (map group_of (Typed.categories pl)))).
Proof.
  intros Hk Hb Hl Hp Hv.
  rewrite (settled_resolved key s text Hk Hb Hl).
  unfold reply_of, list_after. rewrite Hp.
  unfold View.render, View.show_welcome.
  cbn [messages input isLoading packingList apiKeyError].
  rewrite (read_list_truthy nonzero v pl Hv), (display_read v pl Hv).
  rewrite length_app. cbn [List.length exchange].
  replace (List.length (messages s) + 2)
    with (S (S (List.length (messages s)))) by lia.
  reflexivity.
Qed.

Lemma typed_response_witness :
  option_map View.result
    (View.render (fun _ => true)
       (settled (handleSubmit key0 seeded) (Resolved (wrap_fence shuffled_json))))
  = Some (inr [mkGroup (Some (JString (lit "Clothing")))
                       [JString (lit "Shirt"); JString (lit "Pants")]]).
Proof.
  rewrite (typed_response_is_displayed (fun _ => true) key0 seeded
             (wrap_fence shuffled_json)
             (match JSON_parse shuffled_json with Some v => v | None => JNull end)
             clothing_list
             eq_refl eq_refl eq_refl eq_refl eq_refl).
  reflexivity.
Defined.

(** What one event does to the transcript and to the packing list
    together: the list changes only with an exchange appended, and only to
    the value a resolved response parsed to. *)
Lemma step_effect key sys e :
  sound sys ->
  let sys' := step key sys e in
  (messages (ui sys') = messages (ui sys)
   /\ packingList (ui sys') = packingList (ui sys))
  \/ (exists text reply,
         messages (ui sys') = messages (ui sys) ++ exchange text reply)
     /\ (packingList (ui sys') = packingList (ui sys)
         \/ exists response,
             e = Settle (Resolved response)
             /\ JSON_parse (strip_fences response)
                = Some (packingList (ui sys'))).
Proof.
  intros H. cbv zeta. destruct e as [value | | outcome]; simpl.
  - left. auto.
  - unfold handleSubmit.
    destruct (is_empty (trim (input (ui sys))) || isLoading (ui sys));
      [left; auto|].
    destruct (no_api_key key) eqn:Hk.
    + unfold generatePackingList. rewrite Hk. simpl. right. eauto.
    + destruct (generatePackingList_answers key (ui sys) Hk) as (resume & -> & _).
      left. auto.
  - destruct (inflight sys) as [|resume rest] eqn:E; [left; auto|].
    unfold sound in H. rewrite E in H.
    inversion H as [|? ? (text & _ & Ha) _]; subst.
    cbn [ui]. rewrite (Ha outcome (ui sys)). cbn [messages packingList].
    right. split; [eauto|].
    destruct outcome as [response | error]; cbn [list_after]; [|auto].
    destruct (JSON_parse (strip_fences response)) eqn:P; [|auto].
    right. exists response. auto.
Qed.

(** X12. The welcome panel is shown exactly until the first exchange: over
    every run, it is in the tree if and only if the transcript is empty
    (the packing list, which the guard also reads, is still unset then). *)
Theorem welcome_until_first_exchange nonzero key es :
  let s := ui (run key (boot key) es) in
  View.show_welcome nonzero s = match messages s with [] => true | _ => false end.
Proof.
  cbv zeta.
  assert (H : sound (run key (boot key) es)
              /\ (messages (ui (run key (boot key) es)) = [] ->
                  packingList (ui (run key (boot key) es)) = JNull)).
  { apply (run_invariant key
             (fun sys => sound sys
                         /\ (messages (ui sys) = [] ->
                             packingList (ui sys) = JNull))).
    - intros sys e [Hs Hn]. split; [now apply sound_step|].
      destruct (step_effect key sys e Hs) as [[-> ->] | [(t & r & ->) _]];
        [exact Hn|].
      intros E. apply app_eq_nil in E as [_ E]. discriminate.
    - split; [constructor | reflexivity]. }
  destruct H as [_ Hn]. unfold View.show_welcome.
  destruct (messages (ui (run key (boot key) es))); [|reflexivity].
  now rewrite Hn.
Qed.

(** The tree builds when the stored value is unset or of the type. *)
Lemma typed_list_renders nonzero s :
  packingList s = JNull \/ (exists pl, read_list (packingList s) = Some pl) ->
  View.render nonzero s <> None.
Proof.
  intros H.
  assert (D : displayable nonzero (packingList s) = true).
  { destruct H as [-> | [pl E]]; [reflexivity|].
    exact (read_list_displayable nonzero _ pl E). }
  destruct (render_displayable nonzero s D) as (tree & -> & _). discriminate.
Qed.

Lemma typed_answers_keep_list_typed key es : forall sys,
  Forall typed_answer es ->
  sound sys ->
  packingList (ui sys) = JNull
  \/ (exists pl, read_list (packingList (ui sys)) = Some pl) ->
  let sys' := run key sys es in
  packingList (ui sys') = JNull
  \/ (exists pl, read_list (packingList (ui sys')) = Some pl).
Proof.
  induction es as [|e es IH]; intros sys Hes Hs Hp; [exact Hp|].
  inversion Hes as [|? ? He Hrest]; subst.
  apply (IH (step key sys e) Hrest (sound_step key sys e Hs)).
  destruct (step_effect key sys e Hs)
    as [[_ ->] | [_ [-> | (response & -> & P)]]]; try exact Hp.
  simpl in He. rewrite P in He. right. exact He.
Qed.

(** X13. The tree of [App] builds in every state reached through events
    whose resolved responses either fail to parse or parse to a value of
    the type [PackingList] (in any member order, with any further
    members): failed calls, malformed responses, typing and resubmitting
    never make [PackingListDisplay] throw. *)
Theorem tree_builds_on_typed_answers nonzero key es :
  Forall typed_answer es ->
  View.render nonzero (ui (run key (boot key) es)) <> None.
Proof.
  intros Hes. apply typed_list_renders.
  apply (typed_answers_keep_list_typed key es (boot key) Hes);
    [constructor | left; reflexivity].
Qed.

Lemma tree_builds_witness :
  View.render (fun _ => true)
    (ui (run key0 (boot key0)
           [Change trip; Submit; Settle (Resolved (wrap_fence shuffled_json));
            Change (lit "Again"); Submit; Settle (Resolved (lit "no list"));
            Change (lit "Again"); Submit; Settle (Rejected OtherValue)]))
  <> None.
Proof.
  apply (tree_builds_on_typed_answers (fun _ => true) key0).
  repeat constructor. exists clothing_list. reflexivity.
Defined.

(** X14. The rendered chat only grows at its end: over every run, the
    keyed chat elements before an event are a prefix of those after it, so
    an element never changes its key, its place or its content once it is
    shown. *)
Theorem rendered_chat_only_grows key es e :
  let sys := run key (boot key) es in
  exists more,
    View.chat (messages (ui (step key sys e)))
    = View.chat (messages (ui sys)) ++ more.
Proof.
  cbv zeta.
  assert (Hs : sound (run key (boot key) es))
    by (apply run_invariant; [apply sound_step | constructor]).
  destruct (step_transcript key _ e Hs) as (pairs & -> & _).
  unfold View.chat. rewrite mapi_from_app. eauto.
Qed.

(** X15. The chat shows the transcript faithfully: the keys are the
    positions [0, 1, ...], and reading back from each element the role its
    icon stands for and the text in its box gives the transcript itself,
    message for message. *)
Theorem chat_shows_the_transcript ms :
  map fst (View.chat ms) = seq 0 (List.length ms)
  /\ map (fun kb => message_of (snd kb)) (View.chat ms) = ms.
Proof.
  unfold View.chat. generalize 0 as i.
  induction ms as [|m ms IH]; intros i; [split; reflexivity|].
  destruct (IH (S i)) as [IH1 IH2]. cbn [View.mapi_from map seq List.length].
  rewrite IH1, IH2. split; [reflexivity|].
  f_equal. now destruct m as [[|] c].
Qed.

(** ** The earlier revision, further *)

Lemma legacy_proceeds key wording s :
  no_api_key key = false ->
  blank (input s) = false ->
  isLoading s = false ->
  exists resume,
    Legacy.handleSubmit key wording s
    = Await (setApiKeyError false (setIsLoading true s))
            (Legacy.prompt (input s)) resume
    /\ forall o st,
        resume o st
        = setIsLoading false
            match o with
            | Resolved text =>
                match JSON_parse text with
                | Some parsedList =>
                    setInput []
                      (setMessages
                         (fun prev => prev ++ exchange (input s) msg_generated)
                         (setPackingList parsedList st))
                | None =>
                    Legacy.caught (input s) (ErrorObject (wording text)) st
                end
            | Rejected error => Legacy.caught (input s) error st
            end.
Proof.
  intros Hk Hb Hl. unfold Legacy.handleSubmit.
  rewrite is_empty_trim, Hb, Hl. cbn [orb].
  unfold Legacy.generatePackingList. rewrite Hk. eauto.
Qed.

(** X16. The earlier revision does not accept a fenced response: whatever
    the payload, the text wrapped in a [json] fence is not JSON as it
    stands, the submission ends on the call-failure path with the gate up
    and the packing list unchanged, where the current revision ends with
    the gate down. *)
Theorem legacy_rejects_fenced_response key wording s payload :
  no_api_key key = false ->
  blank (input s) = false ->
  isLoading s = false ->
  let text := wrap_fence payload in
  settled (Legacy.handleSubmit key wording s) (Resolved text)
  = mkAppState
      (messages s
       ++ exchange (input s) (Legacy.errorMessage (ErrorObject (wording text))))
      [] false (packingList s) true
  /\ apiKeyError (settled (handleSubmit key s) (Resolved text)) = false.
Proof.
  intros Hk Hb Hl. cbv zeta. split.
  - apply legacy_parse_failure_sets_gate; try assumption.
    apply fenced_text_is_not_json.
  - now rewrite (settled_resolved key s _ Hk Hb Hl).
Qed.

Lemma legacy_rejects_fenced_witness :
  let wording := fun _ : jsstring => lit "Unexpected token" in
  let text := wrap_fence clothing_json in
  settled (Legacy.handleSubmit key0 wording seeded) (Resolved text)
  = mkAppState (messages seeded ++ exchange trip msg_retry)
               [] false clothing true
  /\ packingList (settled (handleSubmit key0 seeded) (Resolved text)) = clothing.
Proof.
  cbv zeta. split; [|reflexivity].
  exact (proj1 (legacy_rejects_fenced_response key0
                  (fun _ => lit "Unexpected token") seeded clothing_json
                  eq_refl eq_refl eq_refl)).
Defined.

(** X17. The two revisions agree on clean exchanges: for a response
    without backticks and without surrounding white space that parses,
    and for a failure whose message does not fall under the rate-limit
    reply, a submission ends in the same state in both. *)
Theorem revisions_agree_on_clean_exchanges key wording s :
  no_api_key key = false ->
  blank (input s) = false ->
  isLoading s = false ->
  (forall text,
      no_backtickb text = true -> trim text = text ->
      JSON_parse text <> None ->
      settled (Legacy.handleSubmit key wording s) (Resolved text)
      = settled (handleSubmit key s) (Resolved text))
  /\ (forall m,
        includes m (lit "API_KEY_INVALID") = true
        \/ includes m (lit "RATE_LIMIT_EXCEEDED") = false ->
        settled (Legacy.handleSubmit key wording s) (Rejected (ErrorObject m))
        = settled (handleSubmit key s) (Rejected (ErrorObject m))).
Proof.
  intros Hk Hb Hl.
  destruct (legacy_proceeds key wording s Hk Hb Hl) as (resume & -> & Hr).
  cbn [settled]. split.
  - intros text Hn Ht Hp.
    rewrite (settled_resolved key s text Hk Hb Hl), Hr.
    unfold reply_of, list_after.
    rewrite (strip_fences_no_backtick text (no_backtickb_sound text Hn)), Ht.
    destruct (JSON_parse text); [reflexivity | congruence].
  - intros m Hm.
    rewrite (settled_rejected key s _ Hk Hb Hl), Hr.
    unfold Legacy.caught, errorMessage, Legacy.errorMessage.
    destruct (includes m (lit "API_KEY_INVALID")); [reflexivity|].
    destruct Hm as [Hm | ->]; [discriminate | reflexivity].
Qed.

Lemma revisions_agree_witness :
  settled (Legacy.handleSubmit key0 (fun _ => []) seeded) (Resolved clothing_json)
  = settled (handleSubmit key0 seeded) (Resolved clothing_json)
  /\ settled (Legacy.handleSubmit key0 (fun _ => []) seeded)
             (Rejected invalid_key_error)
     = settled (handleSubmit key0 seeded) (Rejected invalid_key_error).
Proof.
  destruct (revisions_agree_on_clean_exchanges key0 (fun _ => []) seeded
              eq_refl eq_refl eq_refl) as [H1 H2].
  split.
  - apply H1; [reflexivity | reflexivity | discriminate].
  - apply H2. left. reflexivity.
Defined.

(** X18. In the earlier revision too every submission that is not a no-op
    ends with the input empty and the pending flag down, appends exactly
    the user's text and one reply, and the gate ends up exactly when the
    exchange gave no packing list: on every failed call and, unlike in the
    current revision, on every response that does not parse. *)
Theorem legacy_submission_outcome key wording s o :
  no_api_key key = false ->
  blank (input s) = false ->
  isLoading s = false ->
  let s' := settled (Legacy.handleSubmit key wording s) o in
  input s' = []
  /\ isLoading s' = false
  /\ (exists reply, messages s' = messages s ++ exchange (input s) reply)
  /\ apiKeyError s'
     = match o with
       | Resolved text =>
           match JSON_parse text with Some _ => false | None => true end
       | Rejected _ => true
       end
  /\ packingList s'
     = match o with
       | Resolved text =>
           match JSON_parse text with Some v => v | None => packingList s end
       | Rejected _ => packingList s
       end.
Proof.
  intros Hk Hb Hl. cbv zeta.
  destruct (legacy_proceeds key wording s Hk Hb Hl) as (resume & -> & Hr).
  cbn [settled]. rewrite Hr.
  destruct o as [text | error]; [destruct (JSON_parse text)|];
    simpl; repeat split; eauto.
Qed.

Lemma legacy_submission_witness :
  let s' := settled (Legacy.handleSubmit key0 (fun _ => []) seeded)
                    (Resolved (lit "no list today")) in
  input s' = [] /\ isLoading s' = false /\ apiKeyError s' = true
  /\ packingList s' = clothing.
Proof.
  cbv zeta.
  destruct (legacy_submission_outcome key0 (fun _ => []) seeded
              (Resolved (lit "no list today")) eq_refl eq_refl eq_refl)
    as (H1 & H2 & _ & H3 & H4).
  repeat split; assumption.
Defined.

(** ** The prompt *)



(** ** The gate, the calls and the stored list, over all runs *)

(** X20. The handlers never read the gate: a submission that is not a
    no-op issues the same outbound call and ends in the same state
    whether the gate was up or down when it was made. *)
Theorem handlers_ignore_the_gate key s gate o :
  blank (input s) = false ->
  isLoading s = false ->
  outbound (handleSubmit key (setApiKeyError gate s))
  = outbound (handleSubmit key s)
  /\ settled (handleSubmit key (setApiKeyError gate s)) o
     = settled (handleSubmit key s) o.
Proof.
  intros Hb Hl.
  rewrite (handleSubmit_proceeds key s Hb Hl).
  rewrite (handleSubmit_proceeds key (setApiKeyError gate s)) by assumption.
  unfold generatePackingList. destruct (no_api_key key); [split; reflexivity|].
  split; [reflexivity|]. cbn [settled].
  destruct o as [text | error];
    [destruct (JSON_parse (strip_fences text))|]; reflexivity.
Qed.

Lemma handlers_ignore_gate_witness :
  outbound (handleSubmit key0 (setApiKeyError true seeded)) = [prompt trip]
  /\ settled (handleSubmit key0 (setApiKeyError true seeded))
             (Resolved clothing_json)
     = settled (handleSubmit key0 seeded) (Resolved clothing_json).
Proof.
  destruct (handlers_ignore_the_gate key0 seeded true (Resolved clothing_json)
              eq_refl eq_refl) as [H1 H2].
  split; [rewrite H1; reflexivity | exact H2].
Defined.

(** X21. Every outbound call is answered by exactly one exchange: with a
    credential, over every run, the transcript holds two messages for each
    call issued that is no longer in flight. *)
Theorem one_exchange_per_settled_call key es :
  no_api_key key = false ->
  let sys := run key (boot key) es in
  List.length (messages (ui sys)) + 2 * List.length (inflight sys)
  = 2 * List.length (calls sys).
Proof.
  intros Hk. cbv zeta.
  assert (H : sound (run key (boot key) es)
              /\ List.length (messages (ui (run key (boot key) es)))
                 + 2 * List.length (inflight (run key (boot key) es))
                 = 2 * List.length (calls (run key (boot key) es))).
  { apply (run_invariant key
             (fun sys => sound sys
                         /\ List.length (messages (ui sys))
                            + 2 * List.length (inflight sys)
                            = 2 * List.length (calls sys))).
    - intros sys e [Hs Hn]. split; [now apply sound_step|].
      destruct e as [value | | outcome]; simpl.
      + exact Hn.
      + unfold handleSubmit.
        destruct (is_empty (trim (input (ui sys))) || isLoading (ui sys));
          [exact Hn|].
        destruct (generatePackingList_answers key (ui sys) Hk)
          as (resume & -> & _).
        simpl. rewrite !length_app. simpl. lia.
      + destruct (inflight sys) as [|resume rest] eqn:E; [now rewrite E|].
        unfold sound in Hs. rewrite E in Hs.
        inversion Hs as [|? ? (text & _ & Ha) _]; subst.
        cbn [ui inflight calls]. rewrite (Ha outcome (ui sys)).
        cbn [messages]. rewrite length_app. simpl in *. lia.
    - split; [constructor | reflexivity]. }
  exact (proj2 H).
Qed.

Lemma one_exchange_per_call_witness :
  let sys := run key0 (boot key0)
                 [Change trip; Submit; Settle (Resolved clothing_json);
                  Change (lit "Again"); Submit] in
  List.length (messages (ui sys)) = 2
  /\ List.length (inflight sys) = 1
  /\ List.length (calls sys) = 2.
Proof.
  cbv zeta.
  pose proof (one_exchange_per_settled_call key0
                [Change trip; Submit; Settle (Resolved clothing_json);
                 Change (lit "Again"); Submit] eq_refl) as H.
  cbv zeta in H.
  split; [reflexivity|]. split; [reflexivity|].
  apply (f_equal Nat.div2) in H. exact (eq_sym H).
Defined.

(** X22. The stored packing list is never invented: over every run it is
    still unset, or it is the value that the cleaned text of a response
    which actually arrived parses to. *)
Theorem stored_list_comes_from_a_response key es :
  let s := ui (run key (boot key) es) in
  packingList s = JNull
  \/ exists response,
      In (Settle (Resolved response)) es
      /\ JSON_parse (strip_fences response) = Some (packingList s).
Proof.
  cbv zeta.
  assert (G : forall es sys,
             sound sys ->
             packingList (ui (run key sys es)) = packingList (ui sys)
             \/ exists response,
                 In (Settle (Resolved response)) es
                 /\ JSON_parse (strip_fences response)
                    = Some (packingList (ui (run key sys es)))).
  { clear es. induction es as [|e es IH]; intros sys Hs; [left; reflexivity|].
    change (run key sys (e :: es)) with (run key (step key sys e) es).
    destruct (IH (step key sys e) (sound_step key sys e Hs))
      as [-> | (response & Hin & P)].
    - destruct (step_effect key sys e Hs)
        as [[_ ->] | [_ [-> | (response & -> & P)]]]; auto.
      right. exists response. split; [left; reflexivity | exact P].
    - right. exists response. split; [right; exact Hin | exact P]. }
  destruct (G es (boot key)) as [-> | H]; [constructor | left | right];
    [reflexivity | exact H].
Qed.

(** X23. A response that parses to a falsy value ([null], [false], the
    empty string, a zero) is announced but not shown: the submission
    appends the success reply, stores the value, and the tree holds the
    value itself in place of the panel; [PackingListDisplay] is not built,
    so nothing throws. *)
Theorem falsy_answer_is_announced_not_shown nonzero key s text v :
  no_api_key key = false ->
  blank (input s) = false ->
  isLoading s = false ->
  JSON_parse (strip_fences text) = Some v ->
  View.ToBoolean nonzero v = false ->
  let s' := settled (handleSubmit key s) (Resolved text) in
  messages s' = messages s ++ exchange (input s) msg_generated
  /\ option_map View.result (View.render nonzero s') = Some (inl v).
Proof.
  intros Hk Hb Hl Hp Hv. cbv zeta.
  rewrite (settled_resolved key s text Hk Hb Hl).
  unfold reply_of, list_after. rewrite Hp.
  unfold View.render. cbn [messages packingList]. now rewrite Hv.
Qed.

Lemma falsy_answer_witness :
  let s' := settled (handleSubmit key0 seeded) (Resolved (lit "null")) in
  messages s' = messages seeded ++ exchange trip msg_generated
  /\ option_map View.result (View.render (fun _ => true) s') = Some (inl JNull).
Proof.
  exact (falsy_answer_is_announced_not_shown (fun _ => true) key0 seeded
           (lit "null") JNull eq_refl eq_refl eq_refl eq_refl eq_refl).
Defined.

(** Through the form: what holds of every state the controls let the user
    reach. *)
Lemma form_run_invariant key es : forall sys,
  admissible key sys es = true ->
  sound sys /\ consistent sys
  /\ (apiKeyError (ui sys) = true -> inflight sys = [])
  /\ (apiKeyError (ui sys) = false ->
      no_api_key key = false
      /\ Forall (fun m => role m = assistant ->
                          content m = msg_generated
                          \/ content m = msg_invalid_format)
                (messages (ui sys))) ->
  let sys' := run key sys es in
  apiKeyError (ui sys') = false ->
  Forall (fun m => role m = assistant ->
                   content m = msg_generated \/ content m = msg_invalid_format)
         (messages (ui sys')).
Proof.
  induction es as [|e es IH]; intros sys Ha (Hs & Hc & Hup & Hdown); cbv zeta.
  - intros Hg. now apply Hdown.
  - simpl in Ha. apply andb_true_iff in Ha as [Ho Ha].
    change (run key sys (e :: es)) with (run key (step key sys e) es).
    apply IH; [exact Ha|].
    split; [now apply sound_step|]. split; [now apply consistent_step|].
    destruct e as [value | | outcome]; simpl in Ho |- *.
    + unfold input_disabled in Ho. apply negb_true_iff, orb_false_elim in Ho.
      destruct Ho as [_ Hg]. split; [congruence | auto].
    + unfold button_disabled in Ho. apply negb_true_iff in Ho.
      apply orb_false_elim in Ho as [Ho Hg].
      apply orb_false_elim in Ho as [Hl Hb].
      unfold handleSubmit. rewrite Hl, Hb. cbn [orb].
      destruct (Hdown Hg) as [Hk Hm].
      destruct (generatePackingList_answers key (ui sys) Hk)
        as (resume & -> & _).
      simpl. split; [discriminate | auto].
    + destruct (inflight sys) as [|resume rest] eqn:E;
        [rewrite E; auto|].
      unfold sound in Hs. rewrite E in Hs.
      inversion Hs as [|? ? (text & _ & Hr) _]; subst.
      destruct Hc as [_ Hn]. rewrite E in Hn.
      assert (rest = []) as ->
          by (destruct (isLoading (ui sys)), rest; simpl in Hn; congruence).
      cbn [ui inflight]. rewrite (Hr outcome (ui sys)).
      cbn [apiKeyError messages]. split; [reflexivity|].
      destruct (apiKeyError (ui sys)) eqn:Hg;
        [specialize (Hup eq_refl); congruence|].
      destruct (Hdown eq_refl) as [Hk Hm].
      destruct outcome as [response | error]; cbn [gate_after];
        [|discriminate].
      intros _. split; [exact Hk|].
      apply Forall_app. split; [exact Hm|].
      unfold reply_of. constructor; [discriminate|].
      constructor; [|constructor]. intros _. simpl.
      destruct (JSON_parse (strip_fences response)); auto.
Qed.

(** X24. Through the form an error reply is always the end of the
    conversation: in every state reached by events the controls offer, if
    the gate is down then every assistant message so far is the success
    reply or the "invalid response format" reply. Once any other reply has
    been appended the gate is up and the form stays locked. *)
Theorem error_reply_ends_the_conversation key es :
  admissible key (boot key) es = true ->
  let s := ui (run key (boot key) es) in
  apiKeyError s = false ->
  Forall (fun m => role m = assistant ->
                   content m = msg_generated \/ content m = msg_invalid_format)
         (messages s).
Proof.
  intros Ha. apply (form_run_invariant key es (boot key) Ha).
  split; [constructor|]. split; [apply consistent_boot|].
  split; [reflexivity|]. simpl. intros Hk. split; [exact Hk | constructor].
Qed.

Lemma error_reply_witness :
  let s := ui (run key0 (boot key0)
                 [Change trip; Submit; Settle (Resolved clothing_json);
                  Change (lit "Again"); Submit;
                  Settle (Resolved (lit "no list today"))]) in
  Forall (fun m => role m = assistant ->
                   content m = msg_generated \/ content m = msg_invalid_format)
         (messages s).
Proof.
  cbv zeta.
  exact (error_reply_ends_the_conversation key0
           [Change trip; Submit; Settle (Resolved clothing_json);
            Change (lit "Again"); Submit;
            Settle (Resolved (lit "no list today"))]
           eq_refl eq_refl).
Defined.
